(** * Stochastic-process generators: Poisson processes, Markov chain, random walk

    A shallow embedding of the C++ generators of the repository
    (simulateHomogeneousPoisson, simulateNonHomogeneousPoisson,
    simulateCompoundPoisson, simMarkovChain, simRandomWalk) and the
    properties their specification states.

    Conventions of the embedding.
    - A C++ [double] is a number of an [arithmetic]: of [binary64], the
      IEEE 754 double precision arithmetic of the machine, or of [exact], the
      rationals, where no operation rounds.  The Poisson generators and the
      Monte Carlo loop are given over any arithmetic (module [Rounded]), and
      written out over [exact] (section [Generators]).  What depends on how a
      sum or a quotient rounds is stated over every arithmetic that meets
      [Rounded.ieee_laws], which both do.
    - A C++ [int] is a [Z]; the places where the code could leave the range
      of a 32-bit [int] are written out ([n + 1]).
    - [std::mt19937] and the distributions of <random> are not part of the
      repository: the engine is an abstract state and every distribution is a
      state-passing function on it, taken as a parameter.  What the C++
      standard promises about a distribution's result is a named hypothesis.
    - [std::vector] is a list; [operator[]] is a lookup that fails outside the
      vector, [push_back] appends at the end. *)

From Stdlib Require Import ZArith QArith Qabs Qround List Lia Lqa Sorted String.
From Stdlib Require Import Floats.
From stdpp Require Import base list.
Import ListNotations.

Local Open Scope Z_scope.

(** ** Numbers *)

(** [a < b] on doubles, as a boolean. *)
Definition Qltb (a b : Q) : bool := negb (Qle_bool b a).

(** Largest value of a 32-bit [int]. *)
Definition INT_MAX : Z := 2147483647.
Definition INT_MIN : Z := -2147483648.

(** [a + b] on [int]: defined while the sum is an [int]. *)
Definition int_add (a b : Z) : option Z :=
  let s := a + b in
  if (INT_MIN <=? s) && (s <=? INT_MAX) then Some s else None.

(** ** Outcomes of a call *)

(** What can end a call instead of a normal return.  [InvalidParameter] is the
    error kind of the specification; the other three are what the statements
    of the source can run into. *)
Inductive error : Type :=
| InvalidParameter
| LengthError      (* std::length_error of the vector constructor *)
| OutOfBounds      (* operator[] outside the vector *)
| SignedOverflow.  (* int arithmetic outside the range of int *)

Inductive outcome (A : Type) : Type :=
| Returned (a : A)
| Failed (e : error).
Arguments Returned {A} a.
Arguments Failed {A} e.

(** ** Vectors *)

(** [v[i]] read with an [int] index: the index is converted to an unsigned
    size, so a negative one is outside every vector. *)
Definition vec_at {A} (v : list A) (i : Z) : option A :=
  if (0 <=? i) then v !! Z.to_nat i else None.

(** [v[i] = a] with an [int] index. *)
Definition vec_set {A} (v : list A) (i : Z) (a : A) : option (list A) :=
  if (0 <=? i) && (i <? Z.of_nat (length v))
  then Some (<[Z.to_nat i := a]> v) else None.

(** ** Output *)

(** What a program sends to [std::cout], one item per [<<]. *)
Inductive token : Type :=
| Text (s : string)   (* a string literal *)
| Int (z : Z)         (* an int, a long long or a size *)
| Double (q : Q)      (* a double *)
| Endl.               (* std::endl *)


(** ** Draws from any engine *)

(** [k] successive draws of a distribution [d] on an engine of type [G]. *)
Fixpoint draws_of {G A : Type} (d : G -> A * G) (k : nat) (g : G)
    : list A * G :=
  match k with
  | O => ([], g)
  | S k' =>
      let (a, g1) := d g in
      let (l, g2) := draws_of d k' g1 in
      (a :: l, g2)
  end.

(** ** A small concrete engine

    A tape of raw numbers, read left to right; an exhausted tape keeps
    yielding 0.  The distributions below decode one raw number per draw.  It
    is used to run the generators on concrete inputs. *)

Module Toy.

Definition engine : Type := list Z.

Definition next (g : engine) : Z * engine :=
  match g with
  | [] => (0, [])
  | x :: g' => (x, g')
  end.

Definition seed (s : Z) : engine := [s].

Definition exponential (lambda : Q) (g : engine) : Q * engine :=
  let (x, g') := next g in
  ((inject_Z (Z.abs x + 1) / lambda)%Q, g').

Definition uniform01 (g : engine) : Q * engine :=
  let (x, g') := next g in
  (Qmake (x mod 8) 8, g').

(** Indices of the positive weights, from index [i] on. *)
Fixpoint support_from (i : Z) (w : list Q) : list Z :=
  match w with
  | [] => []
  | q :: w' =>
      if Qltb 0 q then i :: support_from (i + 1) w'
      else support_from (i + 1) w'
  end.

Definition discrete (w : list Q) (g : engine) : Z * engine :=
  let (x, g') := next g in
  let sup := support_from 0 w in
  (nth (Z.to_nat (x mod Z.of_nat (length sup))) sup 0, g').

Definition bernoulli (p : Q) (g : engine) : bool * engine :=
  let (x, g') := next g in (Z.odd x, g').

Definition uniform_m11 (g : engine) : Q * engine :=
  let (x, g') := next g in
  (Qmake (x mod 16 - 8) 8, g').

(** A stand-in for the sine: a triangle wave with values in [-1, 1]. *)
Definition sin (x : Q) : Q :=
  let r := (Qfloor x mod 4)%Z in
  if (r =? 1)%Z then 1%Q else if (r =? 3)%Z then (-1)%Q else 0%Q.

End Toy.

(** ** Arithmetic on doubles

    The additions, products, quotients and comparisons that the generators
    perform on doubles, as a structure: [binary64] is the arithmetic of the
    machine (IEEE 754 double precision, round to nearest), [exact] the
    arithmetic of the rationals, in which no operation rounds.  The module
    [Rounded] gives the Poisson generators and the Monte Carlo loop over any
    such arithmetic; the section [Generators] further down gives them at
    [exact], written out. *)

Record arithmetic : Type := {
  double : Type;
  d_zero : double;                          (* 0.0 *)
  d_one : double;                           (* 1.0 *)
  d_add : double -> double -> double;       (* a + b *)
  d_mul : double -> double -> double;       (* a * b *)
  d_div : double -> double -> double;       (* a / b *)
  d_ltb : double -> double -> bool;         (* a < b *)
  d_leb : double -> double -> bool          (* a <= b *)
}.

Definition exact : arithmetic := {|
  double := Q;
  d_zero := 0%Q;
  d_one := 1%Q;
  d_add := Qplus;
  d_mul := Qmult;
  d_div := Qdiv;
  d_ltb := Qltb;
  d_leb := Qle_bool
|}.

Definition binary64 : arithmetic := {|
  double := float;
  d_zero := 0%float;
  d_one := 1%float;
  d_add := PrimFloat.add;
  d_mul := PrimFloat.mul;
  d_div := PrimFloat.div;
  d_ltb := PrimFloat.ltb;
  d_leb := PrimFloat.leb
|}.

(** The rational number that a finite binary64 value stands for. *)
Definition exact_value (f : float) : Q :=
  match Prim2SF f with
  | S754_finite s m e =>
      (inject_Z (if s then Z.neg m else Z.pos m) * Qpower 2 e)%Q
  | _ => 0%Q
  end.

Module Rounded.

Section Generators.

Variable ar : arithmetic.
Context {mt19937 : Type}.
Variable exponential_distribution :
  double ar -> mt19937 -> double ar * mt19937.
Variable uniform_real_distribution01 : mt19937 -> double ar * mt19937.
Context {mt19937_64 : Type}.
Variable uniform_real_distribution_m11 : mt19937_64 -> double ar * mt19937_64.

(** The [while (true)] loop of [simulateHomogeneousPoisson]: [t += dt] is
    the addition of the arithmetic, [t > T] its comparison. *)
Fixpoint hpp_loop (fuel : nat) (lambda T t : double ar)
    (arrivalTimes : list (double ar)) (rng : mt19937)
    : option (list (double ar) * mt19937) :=
  match fuel with
  | O => None
  | S fuel' =>
      let (dt, rng1) := exponential_distribution lambda rng in
      let t' := d_add ar t dt in
      if d_ltb ar T t' then Some (arrivalTimes, rng1)
      else hpp_loop fuel' lambda T t' (arrivalTimes ++ [t']) rng1
  end.

Definition simulateHomogeneousPoisson (fuel : nat) (lambda T : double ar)
    (rng : mt19937) : option (list (double ar) * mt19937) :=
  hpp_loop fuel lambda T (d_zero ar) [] rng.

(** The range-for loop of [simulateNonHomogeneousPoisson]. *)
Fixpoint thinning_loop (lambda_t : double ar -> double ar)
    (lambdaMax : double ar) (candidateArrivals acceptedArrivals : list (double ar))
    (rng : mt19937) : list (double ar) * mt19937 :=
  match candidateArrivals with
  | [] => (acceptedArrivals, rng)
  | arrivalTime :: rest =>
      let acceptProb := d_div ar (lambda_t arrivalTime) lambdaMax in
      let (u, rng1) := uniform_real_distribution01 rng in
      thinning_loop lambda_t lambdaMax rest
        (if d_ltb ar u acceptProb then acceptedArrivals ++ [arrivalTime]
         else acceptedArrivals)
        rng1
  end.

Definition simulateNonHomogeneousPoisson (fuel : nat)
    (lambda_t : double ar -> double ar) (lambdaMax T : double ar)
    (rng : mt19937) : option (list (double ar) * mt19937) :=
  match simulateHomogeneousPoisson fuel lambdaMax T rng with
  | None => None
  | Some (candidateArrivals, rng1) =>
      Some (thinning_loop lambda_t lambdaMax candidateArrivals [] rng1)
  end.

(** The range-for loop of [simulateCompoundPoisson]: [compoundValue +=
    jumpSize] is the addition of the arithmetic. *)
Fixpoint compound_loop (jumpGenerator : mt19937 -> double ar * mt19937)
    (arrivalTimes : list (double ar)) (compoundValue : double ar)
    (processPath : list (double ar * double ar)) (rng : mt19937)
    : list (double ar * double ar) * mt19937 :=
  match arrivalTimes with
  | [] => (processPath, rng)
  | t :: rest =>
      let (jumpSize, rng1) := jumpGenerator rng in
      let compoundValue' := d_add ar compoundValue jumpSize in
      compound_loop jumpGenerator rest compoundValue'
        (processPath ++ [(t, compoundValue')]) rng1
  end.

Definition simulateCompoundPoisson (fuel : nat) (lambda T : double ar)
    (rng : mt19937) (jumpGenerator : mt19937 -> double ar * mt19937)
    : option (list (double ar * double ar) * mt19937) :=
  match simulateHomogeneousPoisson fuel lambda T rng with
  | None => None
  | Some (arrivalTimes, rng1) =>
      Some (compound_loop jumpGenerator arrivalTimes (d_zero ar) [] rng1)
  end.

(** The loop of the Monte Carlo program: [x*x + y*y <= 1.0] with the
    products, the sum and the comparison of the arithmetic. *)
Fixpoint pi_loop (k : nat) (pointsInsideCircle : Z) (rng : mt19937_64)
    : Z * mt19937_64 :=
  match k with
  | O => (pointsInsideCircle, rng)
  | S k' =>
      let (x, rng1) := uniform_real_distribution_m11 rng in
      let (y, rng2) := uniform_real_distribution_m11 rng1 in
      pi_loop k'
        (if d_leb ar (d_add ar (d_mul ar x x) (d_mul ar y y)) (d_one ar)
         then pointsInsideCircle + 1 else pointsInsideCircle)
        rng2
  end.

(** *** Reference definitions *)

(** The running totals of [jumps] from [v], added left to right with the
    addition of the arithmetic. *)
Fixpoint running_sums (v : double ar) (jumps : list (double ar))
    : list (double ar) :=
  match jumps with
  | [] => []
  | j :: rest => d_add ar v j :: running_sums (d_add ar v j) rest
  end.

(** A candidate time paired with its uniform draw is accepted when the draw
    is below the quotient [lambda_t t / lambdaMax] of the arithmetic. *)
Definition accepts (lambda_t : double ar -> double ar) (lambdaMax : double ar)
    (tu : double ar * double ar) : bool :=
  d_ltb ar (snd tu) (d_div ar (lambda_t (fst tu)) lambdaMax).

Definition draw_point (rng : mt19937_64)
    : (double ar * double ar) * mt19937_64 :=
  let (x, rng1) := uniform_real_distribution_m11 rng in
  let (y, rng2) := uniform_real_distribution_m11 rng1 in
  ((x, y), rng2).

Definition inside_circle (xy : double ar * double ar) : bool :=
  d_leb ar (d_add ar (d_mul ar (fst xy) (fst xy)) (d_mul ar (snd xy) (snd xy)))
    (d_one ar).

(** [a <= b] and [a < b] as propositions. *)
Definition le (a b : double ar) : Prop := d_leb ar a b = true.
Definition lt (a b : double ar) : Prop := d_ltb ar a b = true.

(** exponential_distribution "produces random numbers x > 0". *)
Definition exponential_contract : Prop :=
  forall lambda rng,
    lt (d_zero ar) lambda ->
    lt (d_zero ar) (fst (exponential_distribution lambda rng)).

End Generators.

(** What the order and the addition of binary64 have in common with those
    of the exact arithmetic.  A comparison that holds has no NaN on either
    side; [le a a] says that [a] is not a NaN. *)
Record ieee_laws (ar : arithmetic) : Prop := {
  le_zero_zero : le ar (d_zero ar) (d_zero ar);
  lt_le : forall a b, lt ar a b -> le ar a b;
  le_trans : forall a b c, le ar a b -> le ar b c -> le ar a c;
  le_lt_trans : forall a b c, le ar a b -> lt ar b c -> lt ar a c;
  le_ordered : forall a b, le ar a b -> le ar a a /\ le ar b b;
  not_lt_le : forall a b,
    le ar a a -> le ar b b -> d_ltb ar a b = false -> le ar b a;
  le_not_lt : forall a b, le ar a b -> d_ltb ar b a = false;
  (** adding a positive gap to a clock that is not negative does not take
      the clock back, and leaves it positive *)
  add_pos : forall t d,
    le ar (d_zero ar) t -> lt ar (d_zero ar) d ->
    le ar t (d_add ar t d) /\ lt ar (d_zero ar) (d_add ar t d);
  (** the sum of two numbers that are not positive is not positive *)
  add_nonpos : forall t d,
    le ar t (d_zero ar) -> le ar d (d_zero ar) ->
    le ar (d_add ar t d) (d_zero ar)
}.

End Rounded.

(** ** An engine that replays binary64 numbers

    A tape of doubles: every draw is the next number of the tape; an
    exhausted tape keeps yielding 1.0.  The exponential distribution
    replaces a number that is not positive by 1.0: it yields x > 0 on every
    tape. *)

Module Tape64.

Definition engine : Type := list float.

Definition next (g : engine) : float * engine :=
  match g with
  | [] => (1%float, [])
  | x :: g' => (x, g')
  end.

Definition exponential (lambda : float) (g : engine) : float * engine :=
  let (x, g') := next g in
  (if PrimFloat.ltb 0 x then x else 1%float, g').

Definition uniform01 (g : engine) : float * engine := next g.

End Tape64.

(** ** The generators

    The five generators and the demonstration programs.  The doubles of the
    Poisson generators and of the Monte Carlo loop are taken here in the
    exact arithmetic: [hpp_loop], [thinning_loop], [compound_loop] and
    [pi_loop] are those of [Rounded] at [exact] (lemmas [hpp_loop_exact]
    and following). *)

Section Generators.

(** The engine [std::mt19937] and the distributions drawn from it. *)
Context {mt19937 : Type}.
(** [std::mt19937 gen(seed)]. *)
Variable mt19937_seed : Z -> mt19937.
(** [std::exponential_distribution<double> d(lambda); d(rng)]. *)
Variable exponential_distribution : Q -> mt19937 -> Q * mt19937.
(** [std::uniform_real_distribution<double> U(0.0, 1.0); U(rng)]. *)
Variable uniform_real_distribution01 : mt19937 -> Q * mt19937.
(** [std::discrete_distribution<int> d(first, last); d(gen)]. *)
Variable discrete_distribution : list Q -> mt19937 -> Z * mt19937.
(** [std::bernoulli_distribution d(p); d(gen)]. *)
Variable bernoulli_distribution : Q -> mt19937 -> bool * mt19937.
(** [std::sin] of <cmath>. *)
Variable sin : Q -> Q.
(** The 64-bit engine [std::mt19937_64] of the Monte Carlo program, with
    [std::mt19937_64 rng(seed)] and
    [std::uniform_real_distribution<double> dist(-1.0, 1.0); dist(rng)]. *)
Context {mt19937_64 : Type}.
Variable mt19937_64_seed : Z -> mt19937_64.
Variable uniform_real_distribution_m11 : mt19937_64 -> Q * mt19937_64.

(** *** 1) Homogeneous Poisson process *)

(** The [while (true)] loop of [simulateHomogeneousPoisson]; [fuel] bounds
    the number of iterations, [None] is a loop that has not left yet. *)
Fixpoint hpp_loop (fuel : nat) (lambda T t : Q) (arrivalTimes : list Q)
    (rng : mt19937) : option (list Q * mt19937) :=
  match fuel with
  | O => None
  | S fuel' =>
      let (dt, rng1) := exponential_distribution lambda rng in
      let t' := (t + dt)%Q in
      if Qltb T t' then Some (arrivalTimes, rng1)
      else hpp_loop fuel' lambda T t' (arrivalTimes ++ [t']) rng1
  end.

Definition simulateHomogeneousPoisson (fuel : nat) (lambda T : Q)
    (rng : mt19937) : option (list Q * mt19937) :=
  hpp_loop fuel lambda T 0%Q [] rng.

(** *** 2) Non-homogeneous Poisson process (thinning) *)

(** The range-for loop over [candidateArrivals]. *)
Fixpoint thinning_loop (lambda_t : Q -> Q) (lambdaMax : Q)
    (candidateArrivals acceptedArrivals : list Q) (rng : mt19937)
    : list Q * mt19937 :=
  match candidateArrivals with
  | [] => (acceptedArrivals, rng)
  | arrivalTime :: rest =>
      let acceptProb := (lambda_t arrivalTime / lambdaMax)%Q in
      let (u, rng1) := uniform_real_distribution01 rng in
      thinning_loop lambda_t lambdaMax rest
        (if Qltb u acceptProb then acceptedArrivals ++ [arrivalTime]
         else acceptedArrivals)
        rng1
  end.

Definition simulateNonHomogeneousPoisson (fuel : nat) (lambda_t : Q -> Q)
    (lambdaMax T : Q) (rng : mt19937) : option (list Q * mt19937) :=
  match simulateHomogeneousPoisson fuel lambdaMax T rng with
  | None => None
  | Some (candidateArrivals, rng1) =>
      Some (thinning_loop lambda_t lambdaMax candidateArrivals [] rng1)
  end.

(** *** 3) Compound Poisson process *)

(** The range-for loop over [arrivalTimes]. *)
Fixpoint compound_loop (jumpGenerator : mt19937 -> Q * mt19937)
    (arrivalTimes : list Q) (compoundValue : Q) (processPath : list (Q * Q))
    (rng : mt19937) : list (Q * Q) * mt19937 :=
  match arrivalTimes with
  | [] => (processPath, rng)
  | t :: rest =>
      let (jumpSize, rng1) := jumpGenerator rng in
      let compoundValue' := (compoundValue + jumpSize)%Q in
      compound_loop jumpGenerator rest compoundValue'
        (processPath ++ [(t, compoundValue')]) rng1
  end.

Definition simulateCompoundPoisson (fuel : nat) (lambda T : Q)
    (rng : mt19937) (jumpGenerator : mt19937 -> Q * mt19937)
    : option (list (Q * Q) * mt19937) :=
  match simulateHomogeneousPoisson fuel lambda T rng with
  | None => None
  | Some (arrivalTimes, rng1) =>
      Some (compound_loop jumpGenerator arrivalTimes 0%Q [] rng1)
  end.

(** *** The function-static engine of simMarkovChain and simRandomWalk

    [static std::random_device rd; static std::mt19937 gen(rd());] the
    engine lives in a static slot: empty until the first call, which seeds
    it with the number [entropy] that [rd()] yields; every later call finds
    the engine as the previous call left it. *)
Definition static_gen (slot : option mt19937) (entropy : Z) : mt19937 :=
  match slot with
  | Some gen => gen
  | None => mt19937_seed entropy
  end.

(** *** Markov chain *)

(** [for (int i = 1; i <= n; i++)] with [k] iterations left. *)
Fixpoint mc_loop (p : list (list Q)) (k : nat) (i : Z) (x : list Z)
    (gen : mt19937) : outcome (list Z) * mt19937 :=
  match k with
  | O => (Returned x, gen)
  | S k' =>
      match vec_at x (i - 1) with
      | None => (Failed OutOfBounds, gen)
      | Some cur =>
          match vec_at p cur with
          | None => (Failed OutOfBounds, gen)
          | Some row =>
              let (next, gen1) := discrete_distribution row gen in
              match vec_set x i next with
              | None => (Failed OutOfBounds, gen1)
              | Some x' => mc_loop p k' (i + 1) x' gen1
              end
          end
      end
  end.

(** [simMarkovChain(p, x0, n)].  The statics are initialised first; [n + 1]
    leaves [int] for [n = INT_MAX]; a negative [n + 1] becomes a huge unsigned
    size, which the vector constructor rejects with std::length_error;
    [x[0] = x0] writes outside an empty vector when [n = -1].  The variable
    [nrStates] of the source is computed and never used. *)
Definition simMarkovChain (slot : option mt19937) (entropy : Z)
    (p : list (list Q)) (x0 n : Z) : outcome (list Z) * option mt19937 :=
  let gen := static_gen slot entropy in
  if INT_MAX <=? n then (Failed SignedOverflow, Some gen)
  else if n + 1 <? 0 then (Failed LengthError, Some gen)
  else
    let x := replicate (Z.to_nat (n + 1)) 0 in
    match vec_set x 0 x0 with
    | None => (Failed OutOfBounds, Some gen)
    | Some x1 =>
        let (r, gen') := mc_loop p (Z.to_nat n) 1 x1 gen in
        (r, Some gen')
    end.

(** *** Random walk *)

(** [for (int i = 1; i <= n; i++)] with [k] iterations left. *)
Fixpoint rw_loop (p : Q) (k : nat) (i : Z) (positions : list Z)
    (gen : mt19937) : outcome (list Z) * mt19937 :=
  match k with
  | O => (Returned positions, gen)
  | S k' =>
      let (b, gen1) := bernoulli_distribution p gen in
      let step := if b then 1 else -1 in
      match vec_at positions (i - 1) with
      | None => (Failed OutOfBounds, gen1)
      | Some prev =>
          match int_add prev step with
          | None => (Failed SignedOverflow, gen1)
          | Some pos =>
              match vec_set positions i pos with
              | None => (Failed OutOfBounds, gen1)
              | Some positions' => rw_loop p k' (i + 1) positions' gen1
              end
          end
      end
  end.

(** [simRandomWalk(p, n)].  The statics are initialised first; the vector
    [positions(n + 1, 0)] is built as in [simMarkovChain]; for [n = -1] it is
    empty and the loop body never runs. *)
Definition simRandomWalk (slot : option mt19937) (entropy : Z)
    (p : Q) (n : Z) : outcome (list Z) * option mt19937 :=
  let gen := static_gen slot entropy in
  if INT_MAX <=? n then (Failed SignedOverflow, Some gen)
  else if n + 1 <? 0 then (Failed LengthError, Some gen)
  else
    let positions := replicate (Z.to_nat (n + 1)) 0 in
    let (r, gen') := rw_loop p (Z.to_nat n) 1 positions gen in
    (r, Some gen').

(** *** The demonstration programs

    Each [main] is the list of items it sends to [std::cout]. *)

(** [M_PI], the literal of the source. *)
Definition M_PI : Q := 3.14159265358979323846.

(** [exampleLambda(t) = 2.0 + 2.0 * std::sin(0.1 * M_PI * t)]. *)
Definition exampleLambda (t : Q) : Q :=
  (2.0 + 2.0 * sin (0.1 * M_PI * t))%Q.





(** [for (int i = 0; i <= n; ++i) cout << "Step " << i << ": " << path[i]
    << endl] with [k] iterations left. *)
Fixpoint print_walk_loop (k : nat) (i : Z) (path : list Z)
    : outcome (list token) :=
  match k with
  | O => Returned []
  | S k' =>
      match vec_at path i with
      | None => Failed OutOfBounds
      | Some v =>
          match print_walk_loop k' (i + 1) path with
          | Returned rest =>
              Returned (Text "Step " :: Int i :: Text ": " :: Int v :: Endl
                          :: rest)
          | Failed e => Failed e
          end
      end
  end.

(** [main] of the random walk program. *)
Definition walk_main (entropy : Z) : outcome (list token) :=
  let p := 0.5%Q in
  let n := 100 in
  match simRandomWalk None entropy p n with
  | (Returned path, _) => print_walk_loop (Z.to_nat (n + 1)) 0 path
  | (Failed e, _) => Failed e
  end.

(** *** Monte Carlo estimate of pi *)

(** [for (long long i = 0; i < N; i++)] with [k] iterations left: draw [x],
    then [y], count the point when [x*x + y*y <= 1.0]. *)
Fixpoint pi_loop (k : nat) (pointsInsideCircle : Z) (rng : mt19937_64)
    : Z * mt19937_64 :=
  match k with
  | O => (pointsInsideCircle, rng)
  | S k' =>
      let (x, rng1) := uniform_real_distribution_m11 rng in
      let (y, rng2) := uniform_real_distribution_m11 rng1 in
      pi_loop k'
        (if Qle_bool (x * x + y * y) 1.0 then pointsInsideCircle + 1
         else pointsInsideCircle)
        rng2
  end.

(** The body of [main] for a sample size [N] and an engine: the count and
    [piEstimate = 4.0 * (count / N)]. *)
Definition piEstimate (N : Z) (rng : mt19937_64) : Q :=
  let pointsInsideCircle := fst (pi_loop (Z.to_nat N) 0 rng) in
  (4.0 * (inject_Z pointsInsideCircle / inject_Z N))%Q.

(** [main] of the Monte Carlo program: [N = 100000000], engine seeded with
    12345. *)
Definition pi_main : list token :=
  [Text "Estimated Pi = ";
   Double (piEstimate 100000000 (mt19937_64_seed 12345));
   Endl].

(** ** Reference definitions for the statements *)

(** [k] successive draws of one distribution: the values in the order
    drawn, and the engine after the last draw. *)
Fixpoint draws {A : Type} (d : mt19937 -> A * mt19937) (k : nat)
    (rng : mt19937) : list A * mt19937 :=
  match k with
  | O => ([], rng)
  | S k' =>
      let (a, rng1) := d rng in
      let (l, rng2) := draws d k' rng1 in
      (a :: l, rng2)
  end.

(** A candidate time paired with its uniform draw is accepted when the draw
    is below [lambda_t t / lambdaMax]. *)
Definition accepts (lambda_t : Q -> Q) (lambdaMax : Q) (tu : Q * Q) : bool :=
  Qltb (snd tu) (lambda_t (fst tu) / lambdaMax)%Q.

(** The running totals of [jumps] from the starting value [v]. *)
Fixpoint running_sums (v : Q) (jumps : list Q) : list Q :=
  match jumps with
  | [] => []
  | j :: rest => (v + j)%Q :: running_sums (v + j)%Q rest
  end.

(** Sum of the weights of a row. *)
Definition row_sum (row : list Q) : Q := fold_right Qplus 0%Q row.

(** The tolerance within which a row has to sum to 1. *)
Definition row_tolerance : Q := 1 # 1000000000.

(** A transition matrix: square, weights not negative, every row summing to
    1 within [row_tolerance]. *)
Definition valid_row (m : nat) (row : list Q) : bool :=
  Nat.eqb (length row) m && forallb (Qle_bool 0) row
    && Qle_bool (Qabs (row_sum row - 1)) row_tolerance.

Definition valid_transition_matrix (p : list (list Q)) : bool :=
  forallb (valid_row (length p)) p.

(** Square with no empty row: all that the index safety of simMarkovChain
    needs. *)
Definition square_nonempty (p : list (list Q)) : bool :=
  forallb (fun row => Nat.eqb (length row) (length p)
                      && negb (Nat.eqb (length row) 0)) p.

Definition valid_state (p : list (list Q)) (s : Z) : bool :=
  (0 <=? s) && (s <? Z.of_nat (length p)).

(** The probability [p[s][s']] when both indices are inside the matrix. *)
Definition transition_probability (p : list (list Q)) (s s' : Z) : option Q :=
  match vec_at p s with
  | Some row => vec_at row s'
  | None => None
  end.

(** The states after the initial one, as the specification words them:
    starting from [cur], [k] times draw the next state from the row of
    the current state. *)
Fixpoint chain_states (p : list (list Q)) (k : nat) (cur : Z)
    (gen : mt19937) : list Z * mt19937 :=
  match k with
  | O => ([], gen)
  | S k' =>
      let (next, gen1) :=
        discrete_distribution (default [] (vec_at p cur)) gen in
      let (rest, gen2) := chain_states p k' next gen1 in
      (next :: rest, gen2)
  end.

(** The positions after [pos], one per Bernoulli outcome: up on success,
    down on failure. *)
Fixpoint walk_from (pos : Z) (steps : list bool) : list Z :=
  match steps with
  | [] => []
  | b :: rest =>
      let pos' := pos + (if b then 1 else -1) in
      pos' :: walk_from pos' rest
  end.

(** Number of successes among Bernoulli outcomes. *)
Fixpoint successes (steps : list bool) : Z :=
  match steps with
  | [] => 0
  | b :: rest => (if b then 1 else 0) + successes rest
  end.


(** The lines of the random walk program from step [i] on. *)
Fixpoint walk_lines (i : Z) (path : list Z) : list token :=
  match path with
  | [] => []
  | v :: rest =>
      Text "Step " :: Int i :: Text ": " :: Int v :: Endl
        :: walk_lines (i + 1) rest
  end.

(** One point of the Monte Carlo program: [x] drawn first, then [y]. *)
Definition draw_point (rng : mt19937_64) : (Q * Q) * mt19937_64 :=
  let (x, rng1) := uniform_real_distribution_m11 rng in
  let (y, rng2) := uniform_real_distribution_m11 rng1 in
  ((x, y), rng2).

Definition inside_circle (xy : Q * Q) : bool :=
  Qle_bool (fst xy * fst xy + snd xy * snd xy) 1.0.

(** ** What the C++ standard promises about the distributions *)

(** The sine stays between -1 and 1. *)
Definition sin_contract : Prop :=
  forall x, (-1 <= sin x)%Q /\ (sin x <= 1)%Q.

(** exponential_distribution "produces random numbers x > 0". *)
Definition exponential_contract : Prop :=
  forall lambda rng, (0 < lambda)%Q ->
    (0 < fst (exponential_distribution lambda rng))%Q.

(** uniform_real_distribution(a, b) "produces random numbers x, a <= x < b". *)
Definition uniform01_contract : Prop :=
  forall rng, (0 <= fst (uniform_real_distribution01 rng))%Q /\
              (fst (uniform_real_distribution01 rng) < 1)%Q.

(** discrete_distribution over n weights "produces random integers i,
    0 <= i < n". *)
Definition discrete_range_contract : Prop :=
  forall w gen, w <> [] ->
    0 <= fst (discrete_distribution w gen) < Z.of_nat (length w).

(** discrete_distribution produces i with probability w_i / S: over weights
    that are not negative and have a positive sum, an index of weight 0 is
    not produced. *)
Definition discrete_support_contract : Prop :=
  forall w gen, forallb (Qle_bool 0) w = true -> (0 < row_sum w)%Q ->
    exists wi, vec_at w (fst (discrete_distribution w gen)) = Some wi /\
               (0 < wi)%Q.

(** ** Facts about comparisons and vectors *)

Lemma Qltb_lt (a b : Q) : Qltb a b = true <-> (a < b)%Q.
Proof.
  unfold Qltb. rewrite negb_true_iff. split.
  - intros H. apply Qnot_le_lt. intros Hle.
    apply Qle_bool_iff in Hle. congruence.
  - intros H. destruct (Qle_bool b a) eqn:E; [|reflexivity].
    apply Qle_bool_iff in E. exfalso. apply (Qlt_not_le _ _ H E).
Qed.

Lemma Qltb_ge (a b : Q) : Qltb a b = false <-> (b <= a)%Q.
Proof.
  unfold Qltb. rewrite negb_false_iff. apply Qle_bool_iff.
Qed.

(** ** Homogeneous Poisson process *)

(** One iteration of the loop. *)
Lemma hpp_loop_S (fuel : nat) (lambda T t : Q) (acc : list Q) (rng : mt19937) :
  hpp_loop (S fuel) lambda T t acc rng =
  let (dt, rng1) := exponential_distribution lambda rng in
  if Qltb T (t + dt)%Q then Some (acc, rng1)
  else hpp_loop fuel lambda T (t + dt)%Q (acc ++ [(t + dt)%Q]) rng1.
Proof. reflexivity. Qed.

(** ** Thinning *)



Lemma length_draws {A} (d : mt19937 -> A * mt19937) (k : nat) (rng : mt19937) :
  length (fst (draws d k rng)) = k.
Proof.
  revert rng. induction k as [|k IH]; intros rng; simpl; [reflexivity|].
  destruct (d rng) as [a rng1]. specialize (IH rng1).
  destruct (draws d k rng1) as [l rng2]. simpl in *. congruence.
Qed.

(** The loop of [simulateNonHomogeneousPoisson] draws one uniform per
    candidate, in order, and appends the accepted candidates. *)
Lemma thinning_loop_filter (lambda_t : Q -> Q) (lambdaMax : Q) (cands : list Q) :
  forall acc rng,
    thinning_loop lambda_t lambdaMax cands acc rng =
    (acc ++ map fst (List.filter (accepts lambda_t lambdaMax)
                       (zip cands (fst (draws uniform_real_distribution01
                                          (length cands) rng)))),
     snd (draws uniform_real_distribution01 (length cands) rng)).
Proof.
  induction cands as [|t cands IH]; intros acc rng; simpl.
  - rewrite app_nil_r. reflexivity.
  - destruct (uniform_real_distribution01 rng) as [u rng1].
    rewrite IH.
    destruct (draws uniform_real_distribution01 (length cands) rng1)
      as [us rng2]. simpl.
    unfold accepts at 2. simpl.
    destruct (Qltb u (lambda_t t / lambdaMax)); simpl.
    + rewrite <- app_assoc. reflexivity.
    + reflexivity.
Qed.

Lemma thinning_loop_constant (lambdaMax : Q) (cands : list Q) :
  uniform01_contract -> (0 < lambdaMax)%Q ->
  forall acc rng,
    fst (thinning_loop (fun _ => lambdaMax) lambdaMax cands acc rng)
    = acc ++ cands.
Proof.
  intros HU Hl. induction cands as [|t cands IH]; intros acc rng; simpl.
  - rewrite app_nil_r. reflexivity.
  - destruct (HU rng) as [_ Hu].
    destruct (uniform_real_distribution01 rng) as [u rng1]. simpl in Hu.
    assert (E : Qltb u (lambdaMax / lambdaMax) = true).
    { apply Qltb_lt. unfold Qdiv. rewrite Qmult_inv_r; [exact Hu|].
      intros H0. rewrite H0 in Hl. exact (Qlt_irrefl _ Hl). }
    rewrite E, IH, <- app_assoc. reflexivity.
Qed.

(** C4: with the constant rate function lambda_t(t) = lambdaMax every
    candidate is accepted: simulateNonHomogeneousPoisson returns exactly the
    sequence simulateHomogeneousPoisson returns at rate lambdaMax from the
    same engine (and returns when it does). *)
Theorem simulateNonHomogeneousPoisson_constant_rate :
  uniform01_contract ->
  forall fuel lambdaMax T rng,
    (0 < lambdaMax)%Q ->
    fst <$> simulateNonHomogeneousPoisson fuel (fun _ => lambdaMax) lambdaMax T rng
    = fst <$> simulateHomogeneousPoisson fuel lambdaMax T rng.
Proof.
  intros HU fuel lambdaMax T rng Hl.
  unfold simulateNonHomogeneousPoisson.
  destruct (simulateHomogeneousPoisson fuel lambdaMax T rng)
    as [[cands rng1]|]; simpl; [|reflexivity].
  f_equal. apply (thinning_loop_constant lambdaMax cands HU Hl []).
Qed.

(** ** Compound Poisson process *)

Lemma length_running_sums (jumps : list Q) :
  forall v, length (running_sums v jumps) = length jumps.
Proof.
  induction jumps as [|j jumps IH]; intros v; simpl; [reflexivity|].
  rewrite IH. reflexivity.
Qed.

(** The loop of [simulateCompoundPoisson] draws one jump per arrival, in
    order, and appends the arrival with the running total. *)
Lemma compound_loop_zip (jumpGenerator : mt19937 -> Q * mt19937)
    (arrivals : list Q) :
  forall v path rng,
    compound_loop jumpGenerator arrivals v path rng =
    (path ++ zip arrivals
               (running_sums v
                  (fst (draws jumpGenerator (length arrivals) rng))),
     snd (draws jumpGenerator (length arrivals) rng)).
Proof.
  induction arrivals as [|t arrivals IH]; intros v path rng; simpl.
  - rewrite app_nil_r. reflexivity.
  - destruct (jumpGenerator rng) as [j rng1]. rewrite IH.
    destruct (draws jumpGenerator (length arrivals) rng1) as [js rng2].
    simpl. rewrite <- app_assoc. reflexivity.
Qed.

Lemma length_draws_of {G A} (d : G -> A * G) (k : nat) :
  forall g, length (fst (draws_of d k g)) = k.
Proof.
  induction k as [|k IH]; intros g; simpl; [reflexivity|].
  destruct (d g) as [a g1]. specialize (IH g1).
  destruct (draws_of d k g1) as [l g2]. simpl in *. congruence.
Qed.

(** ** The Poisson generators on rounded arithmetic

    At [exact] the generators of [Rounded] are the generators of this
    section. *)

Lemma hpp_loop_exact (fuel : nat) :
  forall lambda T t acc rng,
    Rounded.hpp_loop exact exponential_distribution fuel lambda T t acc rng
    = hpp_loop fuel lambda T t acc rng.
Proof.
  induction fuel as [|fuel IH]; intros lambda T t acc rng; simpl;
    [reflexivity|].
  destruct (exponential_distribution lambda rng) as [dt rng1].
  destruct (Qltb T (t + dt)); [reflexivity|apply IH].
Qed.

Lemma thinning_loop_exact (lambda_t : Q -> Q) (lambdaMax : Q) (cands : list Q) :
  forall acc rng,
    Rounded.thinning_loop exact uniform_real_distribution01 lambda_t lambdaMax
      cands acc rng
    = thinning_loop lambda_t lambdaMax cands acc rng.
Proof.
  induction cands as [|t cands IH]; intros acc rng; simpl; [reflexivity|].
  destruct (uniform_real_distribution01 rng) as [u rng1]. apply IH.
Qed.

Lemma compound_loop_exact (jumpGenerator : mt19937 -> Q * mt19937)
    (arrivals : list Q) :
  forall v path rng,
    Rounded.compound_loop exact jumpGenerator arrivals v path rng
    = compound_loop jumpGenerator arrivals v path rng.
Proof.
  induction arrivals as [|t arrivals IH]; intros v path rng; simpl;
    [reflexivity|].
  destruct (jumpGenerator rng) as [j rng1]. apply IH.
Qed.

Lemma pi_loop_exact (k : nat) :
  forall c rng,
    Rounded.pi_loop exact uniform_real_distribution_m11 k c rng
    = pi_loop k c rng.
Proof.
  induction k as [|k IH]; intros c rng; simpl; [reflexivity|].
  destruct (uniform_real_distribution_m11 rng) as [x rng1].
  destruct (uniform_real_distribution_m11 rng1) as [y rng2].
  assert (E : Qle_bool (x * x + y * y) 1 = Qle_bool (x * x + y * y) 1.0).
  { apply eq_true_iff_eq. rewrite !Qle_bool_iff. split; intros H; lra. }
  rewrite <- E. apply IH.
Qed.

Lemma simulateHomogeneousPoisson_exact (fuel : nat) (lambda T : Q)
    (rng : mt19937) :
  Rounded.simulateHomogeneousPoisson exact exponential_distribution
    fuel lambda T rng
  = simulateHomogeneousPoisson fuel lambda T rng.
Proof. apply hpp_loop_exact. Qed.

Lemma simulateNonHomogeneousPoisson_exact (fuel : nat) (lambda_t : Q -> Q)
    (lambdaMax T : Q) (rng : mt19937) :
  Rounded.simulateNonHomogeneousPoisson exact exponential_distribution
    uniform_real_distribution01 fuel lambda_t lambdaMax T rng
  = simulateNonHomogeneousPoisson fuel lambda_t lambdaMax T rng.
Proof.
  unfold Rounded.simulateNonHomogeneousPoisson, simulateNonHomogeneousPoisson.
  rewrite simulateHomogeneousPoisson_exact.
  destruct (simulateHomogeneousPoisson fuel lambdaMax T rng)
    as [[cands rng1]|]; [|reflexivity].
  rewrite thinning_loop_exact. reflexivity.
Qed.

Lemma simulateCompoundPoisson_exact (fuel : nat) (lambda T : Q)
    (rng : mt19937) (jumpGenerator : mt19937 -> Q * mt19937) :
  Rounded.simulateCompoundPoisson exact exponential_distribution
    fuel lambda T rng jumpGenerator
  = simulateCompoundPoisson fuel lambda T rng jumpGenerator.
Proof.
  unfold Rounded.simulateCompoundPoisson, simulateCompoundPoisson.
  rewrite simulateHomogeneousPoisson_exact.
  destruct (simulateHomogeneousPoisson fuel lambda T rng)
    as [[arrivals rng1]|]; [|reflexivity].
  rewrite compound_loop_exact. reflexivity.
Qed.

(** The facts that follow hold in every arithmetic, or in every arithmetic
    that meets [Rounded.ieee_laws]: in binary64 ([binary64_ieee_laws]
    below) as well as in [exact] ([exact_ieee_laws]).  Where a sum [t + dt]
    rounds back to [t] a time is repeated, so the arrival times are in
    non-decreasing order and need not increase strictly; a value of the
    compound path is the running sum as rounded at each [+=], which need not
    be the exact sum of the jumps. *)

Section Rounded_arithmetic.

Variable ar : arithmetic.
Variable exponential_distribution_r :
  double ar -> mt19937 -> double ar * mt19937.
Variable uniform_real_distribution01_r : mt19937 -> double ar * mt19937.
Variable uniform_real_distribution_m11_r :
  mt19937_64 -> double ar * mt19937_64.

Local Abbreviation dle := (Rounded.le ar).
Local Abbreviation dlt := (Rounded.lt ar).
Local Abbreviation zero := (d_zero ar).

Lemma rounded_hpp_loop_S (fuel : nat) (lambda T t : double ar)
    (acc : list (double ar)) (rng : mt19937) :
  Rounded.hpp_loop ar exponential_distribution_r (S fuel) lambda T t acc rng =
  let (dt, rng1) := exponential_distribution_r lambda rng in
  if d_ltb ar T (d_add ar t dt) then Some (acc, rng1)
  else Rounded.hpp_loop ar exponential_distribution_r fuel lambda T
         (d_add ar t dt) (acc ++ [d_add ar t dt]) rng1.
Proof. reflexivity. Qed.




(** *** Thinning *)


(** The loop of [Rounded.simulateNonHomogeneousPoisson] draws one uniform
    per candidate, in order, and appends the accepted candidates. *)
Lemma rounded_thinning_loop_filter (lambda_t : double ar -> double ar)
    (lambdaMax : double ar) (cands : list (double ar)) :
  forall acc rng,
    Rounded.thinning_loop ar uniform_real_distribution01_r lambda_t lambdaMax
      cands acc rng =
    (acc ++ map fst (List.filter (Rounded.accepts ar lambda_t lambdaMax)
                       (zip cands
                          (fst (draws_of uniform_real_distribution01_r
                                  (length cands) rng)))),
     snd (draws_of uniform_real_distribution01_r (length cands) rng)).
Proof.
  induction cands as [|t cands IH]; intros acc rng; simpl.
  - rewrite app_nil_r. reflexivity.
  - destruct (uniform_real_distribution01_r rng) as [u rng1].
    rewrite IH.
    destruct (draws_of uniform_real_distribution01_r (length cands) rng1)
      as [us rng2]. simpl.
    unfold Rounded.accepts at 2. simpl.
    destruct (d_ltb ar u (d_div ar (lambda_t t) lambdaMax)); simpl.
    + rewrite <- app_assoc. reflexivity.
    + reflexivity.
Qed.


(** *** Compound process *)


Lemma rounded_length_running_sums (jumps : list (double ar)) :
  forall v, length (Rounded.running_sums ar v jumps) = length jumps.
Proof.
  induction jumps as [|j jumps IH]; intros v; simpl; [reflexivity|].
  rewrite IH. reflexivity.
Qed.

(** The loop of [Rounded.simulateCompoundPoisson] draws one jump per
    arrival, in order, and appends the arrival with the running total. *)
Lemma rounded_compound_loop_zip
    (jumpGenerator : mt19937 -> double ar * mt19937)
    (arrivals : list (double ar)) :
  forall v path rng,
    Rounded.compound_loop ar jumpGenerator arrivals v path rng =
    (path ++ zip arrivals
               (Rounded.running_sums ar v
                  (fst (draws_of jumpGenerator (length arrivals) rng))),
     snd (draws_of jumpGenerator (length arrivals) rng)).
Proof.
  induction arrivals as [|t arrivals IH]; intros v path rng; simpl.
  - rewrite app_nil_r. reflexivity.
  - destruct (jumpGenerator rng) as [j rng1]. rewrite IH.
    destruct (draws_of jumpGenerator (length arrivals) rng1) as [js rng2].
    simpl. rewrite <- app_assoc. reflexivity.
Qed.


(** *** The gaps drawn and the arrivals returned *)

Lemma rounded_hpp_loop_partial_sums (fuel : nat) :
  forall lambda T t acc rng arr rng',
    Rounded.hpp_loop ar exponential_distribution_r fuel lambda T t acc rng
      = Some (arr, rng') ->
    exists new over,
      arr = acc ++ new /\
      Rounded.running_sums ar t
        (fst (draws_of (exponential_distribution_r lambda)
                (S (length new)) rng)) = new ++ [over] /\
      d_ltb ar T over = true /\
      Forall (fun x => d_ltb ar T x = false) new /\
      rng' = snd (draws_of (exponential_distribution_r lambda)
                    (S (length new)) rng).
Proof.
  induction fuel as [|fuel IH]; intros lambda T t acc rng arr rng' H;
    [discriminate|].
  rewrite rounded_hpp_loop_S in H.
  destruct (exponential_distribution_r lambda rng) as [dt rng1] eqn:Edraw.
  destruct (d_ltb ar T (d_add ar t dt)) eqn:E.
  - inversion H; subst arr rng'. exists [], (d_add ar t dt).
    rewrite app_nil_r. simpl. rewrite Edraw. simpl.
    repeat apply conj; try reflexivity; try assumption. constructor.
  - destruct (IH _ _ _ _ _ _ _ H)
      as (new & over & -> & Hsum & Hover & Hle & ->).
    exists (d_add ar t dt :: new), over. rewrite <- app_assoc.
    change (S (length (d_add ar t dt :: new))) with (S (S (length new))).
    change (draws_of (exponential_distribution_r lambda)
              (S (S (length new))) rng)
      with (let (a, rng1) := exponential_distribution_r lambda rng in
            let (l, rng2) := draws_of (exponential_distribution_r lambda)
                               (S (length new)) rng1 in
            (a :: l, rng2)).
    rewrite Edraw.
    destruct (draws_of (exponential_distribution_r lambda)
                (S (length new)) rng1) as [l rng2]. simpl in *.
    repeat apply conj; try reflexivity; try assumption.
    + rewrite Hsum. reflexivity.
    + constructor; assumption.
Qed.

(** X1: the arrival times returned by simulateHomogeneousPoisson are the
    running sums of the exponential gaps drawn, in order, each sum rounded
    as [t += dt] rounds it; exactly one more gap is drawn than arrivals are
    returned, and that last gap is the one that takes the clock past T.
    This holds for every rate and horizon, in every arithmetic. *)
Theorem simulateHomogeneousPoisson_partial_sums :
  forall fuel lambda T rng arr rng',
    Rounded.simulateHomogeneousPoisson ar exponential_distribution_r
      fuel lambda T rng = Some (arr, rng') ->
    exists over,
      Rounded.running_sums ar zero
        (fst (draws_of (exponential_distribution_r lambda)
                (S (length arr)) rng)) = arr ++ [over] /\
      d_ltb ar T over = true /\
      Forall (fun x => d_ltb ar T x = false) arr /\
      rng' = snd (draws_of (exponential_distribution_r lambda)
                    (S (length arr)) rng).
Proof.
  intros fuel lambda T rng arr rng' H.
  destruct (rounded_hpp_loop_partial_sums fuel _ _ _ _ _ _ _ H)
    as (new & over & -> & H1 & H2 & H3 & H4).
  exists over. simpl. auto.
Qed.

(** *** The clock does not advance on gaps that are not positive *)

Lemma rounded_hpp_loop_stays (fuel : nat) :
  Rounded.ieee_laws ar ->
  forall lambda T t acc rng,
    (forall g, dle (fst (exponential_distribution_r lambda g)) zero) ->
    dle t zero -> dle zero T ->
    Rounded.hpp_loop ar exponential_distribution_r fuel lambda T t acc rng
    = None.
Proof.
  intros laws.
  induction fuel as [|fuel IH]; intros lambda T t acc rng Hgap Ht HT;
    [reflexivity|].
  rewrite rounded_hpp_loop_S.
  pose proof (Hgap rng) as Hd.
  destruct (exponential_distribution_r lambda rng) as [dt rng1]. simpl in Hd.
  pose proof (Rounded.add_nonpos ar laws t dt Ht Hd) as Hsum.
  rewrite (Rounded.le_not_lt ar laws _ _
             (Rounded.le_trans ar laws _ _ _ Hsum HT)).
  apply IH; assumption.
Qed.

(** *** The Monte Carlo loop *)

Lemma rounded_pi_loop_count (k : nat) :
  forall c rng,
    Rounded.pi_loop ar uniform_real_distribution_m11_r k c rng =
    (c + Z.of_nat
           (length (List.filter (Rounded.inside_circle ar)
                      (fst (draws_of
                              (Rounded.draw_point ar
                                 uniform_real_distribution_m11_r) k rng)))),
     snd (draws_of (Rounded.draw_point ar uniform_real_distribution_m11_r)
            k rng)).
Proof.
  induction k as [|k IH]; intros c rng; simpl.
  - f_equal. lia.
  - unfold Rounded.draw_point at 1 3.
    destruct (uniform_real_distribution_m11_r rng) as [x rng1].
    destruct (uniform_real_distribution_m11_r rng1) as [y rng2].
    rewrite IH.
    destruct (draws_of (Rounded.draw_point ar uniform_real_distribution_m11_r)
                k rng2) as [pts rng3]. simpl.
    unfold Rounded.inside_circle at 2. simpl.
    destruct (d_leb ar (d_add ar (d_mul ar x x) (d_mul ar y y)) (d_one ar));
      simpl; f_equal; lia.
Qed.

Lemma rounded_draws_of_points (k : nat) :
  forall rng,
    snd (draws_of (Rounded.draw_point ar uniform_real_distribution_m11_r) k rng)
    = snd (draws_of uniform_real_distribution_m11_r (k + k) rng).
Proof.
  induction k as [|k IH]; intros rng; [reflexivity|].
  replace (S k + S k)%nat with (S (S (k + k))) by lia. cbn [draws_of].
  unfold Rounded.draw_point at 1.
  destruct (uniform_real_distribution_m11_r rng) as [x rng1].
  destruct (uniform_real_distribution_m11_r rng1) as [y rng2].
  specialize (IH rng2).
  destruct (draws_of (Rounded.draw_point ar uniform_real_distribution_m11_r)
              k rng2) as [pts rng3].
  destruct (draws_of uniform_real_distribution_m11_r (k + k) rng2)
    as [us rng4].
  simpl in *. exact IH.
Qed.

(** X20: the loop of the Monte Carlo program draws N points, x before y, so
    2N numbers in all, and its counter ends at the number of those points
    for which the test [x*x + y*y <= 1.0] holds as the code evaluates it:
    both products and their sum rounded.  This holds in every arithmetic. *)
Theorem pi_loop_counts_points_inside :
  forall (N : nat) rng,
    fst (Rounded.pi_loop ar uniform_real_distribution_m11_r N 0 rng)
    = Z.of_nat
        (length (List.filter (Rounded.inside_circle ar)
                   (fst (draws_of
                           (Rounded.draw_point ar
                              uniform_real_distribution_m11_r) N rng)))) /\
    length (fst (draws_of
                   (Rounded.draw_point ar uniform_real_distribution_m11_r)
                   N rng)) = N /\
    snd (Rounded.pi_loop ar uniform_real_distribution_m11_r N 0 rng)
    = snd (draws_of uniform_real_distribution_m11_r (2 * N) rng).
Proof.
  intros N rng. rewrite rounded_pi_loop_count. cbn [fst snd].
  repeat apply conj.
  - lia.
  - apply length_draws_of.
  - replace (2 * N)%nat with (N + N)%nat by lia.
    apply rounded_draws_of_points.
Qed.

End Rounded_arithmetic.

(** ** Vector accesses *)

Lemma vec_at_Some {A} (v : list A) (i : Z) (a : A) :
  vec_at v i = Some a <-> 0 <= i /\ v !! Z.to_nat i = Some a.
Proof.
  unfold vec_at. destruct (Z.leb_spec 0 i); split.
  - intros H'. split; [lia|exact H'].
  - intros [_ H']. exact H'.
  - discriminate.
  - intros [? _]. lia.
Qed.

Lemma vec_at_middle {A} (l1 l2 : list A) (x : A) (i : Z) :
  i = Z.of_nat (length l1) -> vec_at (l1 ++ x :: l2) i = Some x.
Proof.
  intros ->. apply vec_at_Some. split; [lia|].
  apply list_lookup_middle. lia.
Qed.

Lemma vec_set_middle {A} (l1 l2 : list A) (x y : A) (i : Z) :
  i = Z.of_nat (length l1) ->
  vec_set (l1 ++ x :: l2) i y = Some (l1 ++ y :: l2).
Proof.
  intros ->. unfold vec_set.
  rewrite length_app. simpl.
  destruct (Z.leb_spec 0 (Z.of_nat (length l1))); [|lia].
  destruct (Z.ltb_spec (Z.of_nat (length l1))
              (Z.of_nat (length l1 + S (length l2)))); [|lia].
  simpl. rewrite Nat2Z.id.
  replace (length l1) with (length l1 + 0)%nat at 1 by lia.
  rewrite insert_app_r. reflexivity.
Qed.

(** ** Random walk *)

Lemma int_add_small (a b : Z) :
  Z.abs (a + b) <= INT_MAX -> int_add a b = Some (a + b).
Proof.
  intros H. unfold int_add, INT_MIN, INT_MAX in *. simpl.
  destruct (Z.leb_spec (-2147483648) (a + b)); [|lia].
  destruct (Z.leb_spec (a + b) 2147483647); [|lia].
  reflexivity.
Qed.

(** Loop invariant of [rw_loop]: the entries before index [i] are final,
    the last of them is [prev], the [k] entries from [i] on are still 0;
    the loop fills them with the walk that continues from [prev]. *)
Lemma rw_loop_walk (p : Q) (k : nat) :
  forall done0 prev i gen,
    i = Z.of_nat (length done0) + 1 ->
    Z.abs prev <= Z.of_nat (length done0) ->
    Z.of_nat (length done0) + Z.of_nat k <= INT_MAX ->
    rw_loop p k i ((done0 ++ [prev]) ++ replicate k 0) gen =
    (Returned ((done0 ++ [prev]) ++
               walk_from prev (fst (draws (bernoulli_distribution p) k gen))),
     snd (draws (bernoulli_distribution p) k gen)).
Proof.
  induction k as [|k IH]; intros done0 prev i gen Hi Hprev Hmax; simpl.
  - reflexivity.
  - destruct (bernoulli_distribution p gen) as [b gen1].
    rewrite <- (app_assoc done0 [prev]). simpl.
    rewrite (vec_at_middle done0) by lia.
    rewrite int_add_small by (destruct b; lia).
    set (pos := prev + (if b then 1 else -1)).
    replace (done0 ++ prev :: 0 :: replicate k 0)
      with ((done0 ++ [prev]) ++ 0 :: replicate k 0)
      by (rewrite <- app_assoc; reflexivity).
    rewrite (vec_set_middle (done0 ++ [prev]))
      by (rewrite length_app; simpl; lia).
    replace ((done0 ++ [prev]) ++ pos :: replicate k 0)
      with (((done0 ++ [prev]) ++ [pos]) ++ replicate k 0)
      by (rewrite <- (app_assoc _ [pos]); reflexivity).
    rewrite (IH (done0 ++ [prev]) pos (i + 1) gen1).
    + destruct (draws (bernoulli_distribution p) k gen1) as [bs gen2].
      simpl. fold pos. rewrite <- (app_assoc _ [pos]). reflexivity.
    + rewrite length_app. simpl. lia.
    + rewrite length_app. simpl. subst pos. destruct b; lia.
    + rewrite length_app. simpl. lia.
Qed.

(** For 0 <= n < INT_MAX the call returns position 0 followed by the walk
    of [n] Bernoulli draws from the static engine. *)
Lemma simRandomWalk_returns (slot : option mt19937) (entropy : Z) (p : Q) (n : Z) :
  0 <= n < INT_MAX ->
  simRandomWalk slot entropy p n =
  (Returned (0 :: walk_from 0
               (fst (draws (bernoulli_distribution p) (Z.to_nat n)
                       (static_gen slot entropy)))),
   Some (snd (draws (bernoulli_distribution p) (Z.to_nat n)
                (static_gen slot entropy)))).
Proof.
  intros Hn. unfold simRandomWalk.
  destruct (Z.leb_spec INT_MAX n); [lia|].
  destruct (Z.ltb_spec (n + 1) 0); [lia|].
  replace (Z.to_nat (n + 1)) with (S (Z.to_nat n)) by lia.
  change (replicate (S (Z.to_nat n)) 0)
    with (([] ++ [0]) ++ replicate (Z.to_nat n) 0).
  rewrite (rw_loop_walk p (Z.to_nat n) [] 0 1); simpl; try lia.
  reflexivity.
Qed.

(** A returning call has 0 <= n < INT_MAX or n = -1. *)
Lemma simRandomWalk_Returned_range (slot : option mt19937) (entropy : Z)
    (p : Q) (n : Z) (path : list Z) (slot' : option mt19937) :
  simRandomWalk slot entropy p n = (Returned path, slot') ->
  -1 <= n < INT_MAX.
Proof.
  unfold simRandomWalk.
  destruct (Z.leb_spec INT_MAX n); [discriminate|].
  destruct (Z.ltb_spec (n + 1) 0); [discriminate|]. lia.
Qed.

Lemma length_walk_from (steps : list bool) :
  forall pos, length (walk_from pos steps) = length steps.
Proof.
  induction steps as [|b steps IH]; intros pos; simpl; [reflexivity|].
  rewrite IH. reflexivity.
Qed.

(** Every position is one step away from the one before it. *)
Lemma walk_from_step (steps : list bool) :
  forall pos i (s : bool),
    steps !! i = Some s ->
    exists a b, (pos :: walk_from pos steps) !! i = Some a /\
                (pos :: walk_from pos steps) !! S i = Some b /\
                b = a + (if s then 1 else -1).
Proof.
  induction steps as [|b0 steps IH]; intros pos i s Hs; [destruct i; discriminate|].
  destruct i as [|i]; simpl in *.
  - inversion Hs; subst. eauto.
  - apply (IH (pos + (if b0 then 1 else -1)) i s Hs).
Qed.

(** After [j] steps the walk is within [j] of its start and has its
    parity. *)
Lemma walk_from_bound_parity (steps : list bool) :
  forall pos j i x,
    Z.abs pos <= j -> Z.even (pos + j) = true ->
    walk_from pos steps !! i = Some x ->
    Z.abs x <= j + 1 + Z.of_nat i /\
    Z.even (x + (j + 1 + Z.of_nat i)) = true.
Proof.
  induction steps as [|b steps IH]; intros pos j i x Hb Hp Hx; [destruct i; discriminate|].
  destruct i as [|i]; simpl in Hx.
  - inversion Hx; subst x. split; [destruct b; lia|].
    replace (pos + (if b then 1 else -1) + (j + 1 + Z.of_nat 0))
      with ((pos + j) + (if b then 2 else 0)) by (destruct b; lia).
    rewrite Z.even_add, Hp. destruct b; reflexivity.
  - destruct (IH (pos + (if b then 1 else -1)) (j + 1) i x) as [H1 H2].
    + destruct b; lia.
    + replace (pos + (if b then 1 else -1) + (j + 1))
        with ((pos + j) + (if b then 2 else 0)) by (destruct b; lia).
      rewrite Z.even_add, Hp. destruct b; reflexivity.
    + exact Hx.
    + split; [lia|].
      replace (x + (j + 1 + Z.of_nat (S i)))
        with (x + (j + 1 + 1 + Z.of_nat i)) by lia. exact H2.
Qed.

(** C7: a path returned by simRandomWalk for upProbability in [0,1] and
    steps >= 0 has steps+1 positions, starts at 0, and every position is the
    previous one +1 when the Bernoulli draw of that step succeeded and -1
    when it failed, so consecutive positions differ by exactly 1; the call
    returns for every steps below INT_MAX. *)
Theorem simRandomWalk_unit_steps :
  forall slot entropy p n,
    (0 <= p)%Q -> (p <= 1)%Q -> 0 <= n ->
    (n < INT_MAX ->
     exists path slot',
       simRandomWalk slot entropy p n = (Returned path, slot')) /\
    forall path slot',
      simRandomWalk slot entropy p n = (Returned path, slot') ->
      let steps := fst (draws (bernoulli_distribution p) (Z.to_nat n)
                          (static_gen slot entropy)) in
      Z.of_nat (length path) = n + 1 /\
      path !! 0%nat = Some 0 /\
      length steps = Z.to_nat n /\
      forall i : nat, (i < Z.to_nat n)%nat ->
        exists (a b : Z) (s : bool),
          path !! i = Some a /\ path !! S i = Some b /\
          steps !! i = Some s /\
          b = a + (if s then 1 else -1) /\ Z.abs (b - a) = 1.
Proof.
  intros slot entropy p n _ _ Hn. split.
  - intros Hmax. rewrite simRandomWalk_returns by lia. eauto.
  - intros path slot' H steps.
    pose proof (simRandomWalk_Returned_range _ _ _ _ _ _ H) as Hr.
    rewrite simRandomWalk_returns in H by lia.
    inversion H; subst path slot'; clear H.
    assert (Hlen : length steps = Z.to_nat n) by apply length_draws.
    repeat split.
    + simpl. rewrite length_walk_from. fold steps. lia.
    + exact Hlen.
    + intros i Hi.
      destruct (lookup_lt_is_Some_2 steps i) as [s Hs]; [lia|].
      destruct (walk_from_step steps 0 i s Hs) as (a & b & Ha & Hb & Hab).
      exists a, b, s. repeat split; try assumption.
      subst b. destruct s; lia.
Qed.

(** C10: in a path returned by simRandomWalk for n >= 0, every index i in
    0..n holds a position x with |x| <= i and x + i even. *)
Theorem simRandomWalk_bound_parity :
  forall slot entropy p n path slot',
    0 <= n ->
    simRandomWalk slot entropy p n = (Returned path, slot') ->
    forall i : nat, Z.of_nat i <= n ->
      exists x, path !! i = Some x /\
                Z.abs x <= Z.of_nat i /\
                Z.even (x + Z.of_nat i) = true.
Proof.
  intros slot entropy p n path slot' Hn H i Hi.
  pose proof (simRandomWalk_Returned_range _ _ _ _ _ _ H) as Hr.
  rewrite simRandomWalk_returns in H by lia.
  inversion H; subst path slot'; clear H.
  destruct i as [|i].
  - exists 0. repeat split; simpl; lia.
  - set (steps := fst (draws (bernoulli_distribution p) (Z.to_nat n)
                         (static_gen slot entropy))).
    assert (Hlen : length steps = Z.to_nat n) by apply length_draws.
    destruct (lookup_lt_is_Some_2 (walk_from 0 steps) i) as [x Hx].
    { rewrite length_walk_from. lia. }
    exists x. split; [exact Hx|].
    destruct (walk_from_bound_parity steps 0 0 i x) as [H1 H2];
      [simpl; lia|reflexivity|exact Hx|].
    split; [lia|].
    replace (x + Z.of_nat (S i)) with (x + (0 + 1 + Z.of_nat i)) by lia.
    exact H2.
Qed.

(** ** Markov chain *)

Lemma forallb_lookup {A} (f : A -> bool) (l : list A) (i : nat) (x : A) :
  forallb f l = true -> l !! i = Some x -> f x = true.
Proof.
  revert i. induction l as [|y l IH]; intros i Hf Hx; [destruct i; discriminate|].
  simpl in Hf. apply andb_true_iff in Hf as [Hy Hl].
  destruct i as [|i]; simpl in Hx.
  - inversion Hx; subst. exact Hy.
  - eapply IH; eassumption.
Qed.

Lemma valid_state_range (p : list (list Q)) (s : Z) :
  valid_state p s = true <-> 0 <= s < Z.of_nat (length p).
Proof.
  unfold valid_state. rewrite andb_true_iff, Z.leb_le, Z.ltb_lt. reflexivity.
Qed.

Lemma valid_state_row (p : list (list Q)) (s : Z) :
  valid_state p s = true -> exists row, vec_at p s = Some row.
Proof.
  intros H. apply valid_state_range in H.
  destruct (lookup_lt_is_Some_2 p (Z.to_nat s)) as [row Hrow]; [lia|].
  exists row. apply vec_at_Some. split; [lia|exact Hrow].
Qed.

Section MarkovSteps.

Variable p : list (list Q).
(** What one draw guarantees about the step it makes. *)
Variable good_step : Z -> Z -> Prop.
Hypothesis draw_good :
  forall cur row gen,
    valid_state p cur = true -> vec_at p cur = Some row ->
    valid_state p (fst (discrete_distribution row gen)) = true /\
    good_step cur (fst (discrete_distribution row gen)).

Lemma length_chain_states (k : nat) :
  forall cur gen, length (fst (chain_states p k cur gen)) = k.
Proof.
  induction k as [|k IH]; intros cur gen; simpl; [reflexivity|].
  destruct (discrete_distribution (default [] (vec_at p cur)) gen)
    as [next gen1].
  specialize (IH next gen1).
  destruct (chain_states p k next gen1) as [rest gen2].
  simpl in *. congruence.
Qed.

Lemma chain_states_steps (k : nat) :
  forall cur gen,
    valid_state p cur = true ->
    Forall (fun s => valid_state p s = true)
      (fst (chain_states p k cur gen)) /\
    forall (i : nat) (s s' : Z),
      (cur :: fst (chain_states p k cur gen)) !! i = Some s ->
      (cur :: fst (chain_states p k cur gen)) !! S i = Some s' ->
      good_step s s'.
Proof.
  induction k as [|k IH]; intros cur gen Hcur; simpl.
  - split; [constructor|]. intros i s s' _ H. destruct i; discriminate.
  - destruct (valid_state_row p cur Hcur) as [row Hrow]. rewrite Hrow. simpl.
    destruct (draw_good cur row gen Hcur Hrow) as [Hv Hg].
    destruct (discrete_distribution row gen) as [next gen1]. simpl in Hv, Hg.
    destruct (IH next gen1 Hv) as [IHv IHs].
    destruct (chain_states p k next gen1) as [rest gen2]. simpl in *.
    split; [constructor; assumption|].
    intros i s s' Hs Hs'. destruct i as [|i]; simpl in Hs, Hs'.
    + inversion Hs; inversion Hs'; subst. exact Hg.
    + apply (IHs i s s' Hs Hs').
Qed.

(** Loop invariant of [mc_loop]: the entries before index [i] are final,
    the last of them is the valid state [cur], the [k] entries from [i] on
    are still 0; the loop fills them with the chain that continues from
    [cur], and no access leaves its vector. *)
Lemma mc_loop_chain (k : nat) :
  forall done0 cur i gen,
    i = Z.of_nat (length done0) + 1 ->
    valid_state p cur = true ->
    mc_loop p k i ((done0 ++ [cur]) ++ replicate k 0) gen =
    (Returned ((done0 ++ [cur]) ++ fst (chain_states p k cur gen)),
     snd (chain_states p k cur gen)).
Proof.
  induction k as [|k IH]; intros done0 cur i gen Hi Hcur; simpl.
  - reflexivity.
  - rewrite <- (app_assoc done0 [cur]). simpl.
    rewrite (vec_at_middle done0) by lia.
    destruct (valid_state_row p cur Hcur) as [row Hrow]. rewrite Hrow. simpl.
    destruct (draw_good cur row gen Hcur Hrow) as [Hv _].
    destruct (discrete_distribution row gen) as [next gen1]. simpl in Hv.
    replace (done0 ++ cur :: 0 :: replicate k 0)
      with ((done0 ++ [cur]) ++ 0 :: replicate k 0)
      by (rewrite <- app_assoc; reflexivity).
    rewrite (vec_set_middle (done0 ++ [cur]))
      by (rewrite length_app; simpl; lia).
    replace ((done0 ++ [cur]) ++ next :: replicate k 0)
      with (((done0 ++ [cur]) ++ [next]) ++ replicate k 0)
      by (rewrite <- (app_assoc _ [next]); reflexivity).
    rewrite (IH (done0 ++ [cur]) next (i + 1) gen1).
    + destruct (chain_states p k next gen1) as [rest gen2]. simpl.
      rewrite <- (app_assoc _ [next]). reflexivity.
    + rewrite length_app. simpl. lia.
    + exact Hv.
Qed.

(** For a valid initial state and 0 <= n < INT_MAX the call returns the
    initial state followed by the chain of [n] draws from the static
    engine. *)
Lemma simMarkovChain_returns (slot : option mt19937) (entropy : Z) (x0 n : Z) :
  valid_state p x0 = true -> 0 <= n < INT_MAX ->
  simMarkovChain slot entropy p x0 n =
  (Returned (x0 :: fst (chain_states p (Z.to_nat n) x0
                          (static_gen slot entropy))),
   Some (snd (chain_states p (Z.to_nat n) x0 (static_gen slot entropy)))).
Proof.
  intros Hx0 Hn. unfold simMarkovChain.
  destruct (Z.leb_spec INT_MAX n); [lia|].
  destruct (Z.ltb_spec (n + 1) 0); [lia|].
  replace (Z.to_nat (n + 1)) with (S (Z.to_nat n)) by lia.
  change (replicate (S (Z.to_nat n)) 0)
    with ([] ++ 0 :: replicate (Z.to_nat n) 0).
  rewrite (vec_set_middle []) by reflexivity.
  change ([] ++ x0 :: replicate (Z.to_nat n) 0)
    with (([] ++ [x0]) ++ replicate (Z.to_nat n) 0).
  rewrite (mc_loop_chain (Z.to_nat n) [] x0 1); [reflexivity|reflexivity|exact Hx0].
Qed.

End MarkovSteps.

(** A call that does not fail in the vector constructor has -1 <= n <
    INT_MAX. *)
Lemma simMarkovChain_Returned_range (slot : option mt19937) (entropy : Z)
    (p : list (list Q)) (x0 n : Z) (path : list Z) (slot' : option mt19937) :
  simMarkovChain slot entropy p x0 n = (Returned path, slot') ->
  -1 <= n < INT_MAX.
Proof.
  unfold simMarkovChain.
  destruct (Z.leb_spec INT_MAX n); [discriminate|].
  destruct (Z.ltb_spec (n + 1) 0); [discriminate|]. lia.
Qed.

Lemma valid_matrix_draw (p : list (list Q)) :
  discrete_support_contract ->
  valid_transition_matrix p = true ->
  forall cur row gen,
    valid_state p cur = true -> vec_at p cur = Some row ->
    valid_state p (fst (discrete_distribution row gen)) = true /\
    exists w, transition_probability p cur
                (fst (discrete_distribution row gen)) = Some w /\ (0 < w)%Q.
Proof.
  intros Hsup Hp cur row gen Hcur Hrow.
  pose proof Hrow as Hrow'. apply vec_at_Some in Hrow' as [_ Hlk].
  pose proof (forallb_lookup _ _ _ _ Hp Hlk) as Hv.
  unfold valid_row in Hv.
  apply andb_true_iff in Hv as [Hv Hsum].
  apply andb_true_iff in Hv as [Hlen Hnn].
  apply Nat.eqb_eq in Hlen. apply Qle_bool_iff in Hsum.
  assert (Hpos : (0 < row_sum row)%Q).
  { apply Qabs_Qle_condition in Hsum as [Hlow _].
    unfold row_tolerance in Hlow.
    assert (Hc : (- (1 # 1000000000) == -1 # 1000000000)%Q) by reflexivity.
    lra. }
  destruct (Hsup row gen Hnn Hpos) as (w & Hw & Hw0).
  split.
  - pose proof Hw as Hw'. apply vec_at_Some in Hw' as [H0 Hl].
    apply lookup_lt_Some in Hl. apply valid_state_range. lia.
  - exists w. unfold transition_probability. rewrite Hrow. split; assumption.
Qed.

Lemma square_nonempty_draw (p : list (list Q)) :
  discrete_range_contract ->
  square_nonempty p = true ->
  forall cur row gen,
    valid_state p cur = true -> vec_at p cur = Some row ->
    valid_state p (fst (discrete_distribution row gen)) = true /\ True.
Proof.
  intros Hrange Hp cur row gen Hcur Hrow.
  apply vec_at_Some in Hrow as [_ Hlk].
  pose proof (forallb_lookup _ _ _ _ Hp Hlk) as Hv. simpl in Hv.
  apply andb_true_iff in Hv as [Hlen Hne].
  apply Nat.eqb_eq in Hlen. apply negb_true_iff, Nat.eqb_neq in Hne.
  split; [|exact I]. apply valid_state_range. rewrite <- Hlen.
  apply Hrange. intros ->. apply Hne. reflexivity.
Qed.


(** C9: for steps >= 0, an initialState inside the matrix and a square
    matrix without empty rows, no access of simMarkovChain leaves its
    vector: the call does not end in an out-of-bounds access, a returned
    path has steps+1 entries, and every state in it, sampled or initial, is
    a row index of the matrix. *)
Theorem simMarkovChain_in_bounds :
  discrete_range_contract ->
  forall slot entropy p x0 n,
    square_nonempty p = true -> valid_state p x0 = true -> 0 <= n ->
    fst (simMarkovChain slot entropy p x0 n) <> Failed OutOfBounds /\
    (n < INT_MAX ->
     exists path slot',
       simMarkovChain slot entropy p x0 n = (Returned path, slot')) /\
    forall path slot',
      simMarkovChain slot entropy p x0 n = (Returned path, slot') ->
      Z.of_nat (length path) = n + 1 /\
      Forall (fun s => 0 <= s < Z.of_nat (length p)) path /\
      Forall (fun s => is_Some (vec_at p s)) path.
Proof.
  intros Hrange slot entropy p x0 n Hp Hx0 Hn.
  pose proof (square_nonempty_draw p Hrange Hp) as Hdraw.
  assert (Hret : n < INT_MAX ->
            simMarkovChain slot entropy p x0 n =
            (Returned (x0 :: fst (chain_states p (Z.to_nat n) x0
                                    (static_gen slot entropy))),
             Some (snd (chain_states p (Z.to_nat n) x0
                          (static_gen slot entropy))))).
  { intros Hmax.
    apply (simMarkovChain_returns p (fun _ _ => True) Hdraw); [assumption|lia]. }
  split; [|split].
  - destruct (Z.lt_ge_cases n INT_MAX) as [Hmax|Hmax].
    + rewrite (Hret Hmax). discriminate.
    + unfold simMarkovChain.
      destruct (Z.leb_spec INT_MAX n); [discriminate|lia].
  - intros Hmax. rewrite (Hret Hmax). eauto.
  - intros path slot' H.
    pose proof (simMarkovChain_Returned_range _ _ _ _ _ _ _ H) as Hr.
    rewrite Hret in H by lia.
    inversion H; subst path slot'; clear H.
    destruct (chain_states_steps p (fun _ _ => True) Hdraw (Z.to_nat n) x0
                (static_gen slot entropy) Hx0) as [Hvalid _].
    assert (Hall : Forall (fun s => valid_state p s = true)
              (x0 :: fst (chain_states p (Z.to_nat n) x0
                            (static_gen slot entropy))))
      by (constructor; assumption).
    repeat split.
    + simpl. rewrite (length_chain_states p). lia.
    + eapply Forall_impl; [exact Hall|]. intros s Hs.
      apply valid_state_range. exact Hs.
    + eapply Forall_impl; [exact Hall|]. intros s Hs.
      destruct (valid_state_row p s Hs) as [row Hrow]. rewrite Hrow. eauto.
Qed.

(** ** Parameter checks and failures *)

Lemma rw_loop_not_InvalidParameter (p : Q) (k : nat) :
  forall i positions gen,
    fst (rw_loop p k i positions gen) <> Failed InvalidParameter.
Proof.
  induction k as [|k IH]; intros i positions gen; simpl; [discriminate|].
  destruct (bernoulli_distribution p gen) as [b gen1].
  destruct (vec_at positions (i - 1)) as [prev|]; [|discriminate].
  destruct (int_add prev (if b then 1 else -1)) as [pos|]; [|discriminate].
  destruct (vec_set positions i pos) as [positions'|]; [|discriminate].
  apply IH.
Qed.

Lemma mc_loop_not_InvalidParameter (p : list (list Q)) (k : nat) :
  forall i x gen,
    fst (mc_loop p k i x gen) <> Failed InvalidParameter.
Proof.
  induction k as [|k IH]; intros i x gen; simpl; [discriminate|].
  destruct (vec_at x (i - 1)) as [cur|]; [|discriminate].
  destruct (vec_at p cur) as [row|]; [|discriminate].
  destruct (discrete_distribution row gen) as [next gen1].
  destruct (vec_set x i next) as [x'|]; [|discriminate].
  apply IH.
Qed.

(** C2 (amended): no call of simRandomWalk or simMarkovChain ends in
    InvalidParameter.  simRandomWalk returns the empty path for steps = -1,
    ends in std::length_error for steps < -1, and for every upProbability,
    also one outside [0,1], returns steps+1 positions when 0 <= steps <
    INT_MAX.  simMarkovChain ends in std::length_error for steps < -1 and in
    an out-of-bounds write of x[0] for steps = -1.  These failures come
    before any draw: the static engine is left as the call found or seeded
    it.  The three Poisson generators reject no rate: when the gaps that the
    exponential distribution yields are not positive (as they are for a
    negative rate) and horizon >= 0, the clock never passes the horizon and
    the loop of simulateHomogeneousPoisson does not reach its break, so that
    no number of iterations makes any of the three calls return. *)
Theorem generators_do_not_validate :
  forall slot entropy,
    (forall p n,
       fst (simRandomWalk slot entropy p n) <> Failed InvalidParameter) /\
    (forall p,
       simRandomWalk slot entropy p (-1)
       = (Returned [], Some (static_gen slot entropy))) /\
    (forall p n, n < -1 ->
       simRandomWalk slot entropy p n
       = (Failed LengthError, Some (static_gen slot entropy))) /\
    (forall p n, 0 <= n < INT_MAX ->
       exists path, fst (simRandomWalk slot entropy p n) = Returned path /\
                    Z.of_nat (length path) = n + 1) /\
    (forall p x0 n,
       fst (simMarkovChain slot entropy p x0 n) <> Failed InvalidParameter) /\
    (forall p x0 n, n < -1 ->
       simMarkovChain slot entropy p x0 n
       = (Failed LengthError, Some (static_gen slot entropy))) /\
    (forall p x0,
       simMarkovChain slot entropy p x0 (-1)
       = (Failed OutOfBounds, Some (static_gen slot entropy))) /\
    (forall (ar : arithmetic)
            (exponential_distribution_r :
               double ar -> mt19937 -> double ar * mt19937)
            (uniform_real_distribution01_r : mt19937 -> double ar * mt19937)
            (jumpGenerator : mt19937 -> double ar * mt19937)
            (lambda_t : double ar -> double ar) (lambda T : double ar)
            (rng : mt19937) (fuel : nat),
       Rounded.ieee_laws ar ->
       (forall g, Rounded.le ar (fst (exponential_distribution_r lambda g))
                    (d_zero ar)) ->
       Rounded.le ar (d_zero ar) T ->
       Rounded.simulateHomogeneousPoisson ar exponential_distribution_r
         fuel lambda T rng = None /\
       Rounded.simulateNonHomogeneousPoisson ar exponential_distribution_r
         uniform_real_distribution01_r fuel lambda_t lambda T rng = None /\
       Rounded.simulateCompoundPoisson ar exponential_distribution_r
         fuel lambda T rng jumpGenerator = None).
Proof.
  intros slot entropy. repeat apply conj.
  - intros p n. unfold simRandomWalk.
    destruct (INT_MAX <=? n); [discriminate|].
    destruct (n + 1 <? 0); [discriminate|].
    pose proof (rw_loop_not_InvalidParameter p (Z.to_nat n) 1
                  (replicate (Z.to_nat (n + 1)) 0)
                  (static_gen slot entropy)) as H.
    destruct (rw_loop p (Z.to_nat n) 1 (replicate (Z.to_nat (n + 1)) 0)
                (static_gen slot entropy)) as [r gen']. exact H.
  - intros p. reflexivity.
  - intros p n Hn. unfold simRandomWalk.
    destruct (Z.leb_spec INT_MAX n); [unfold INT_MAX in *; lia|].
    destruct (Z.ltb_spec (n + 1) 0); [reflexivity|lia].
  - intros p n Hn. rewrite simRandomWalk_returns by lia.
    eexists. split; [reflexivity|].
    simpl. rewrite length_walk_from, length_draws. lia.
  - intros p x0 n. unfold simMarkovChain.
    destruct (INT_MAX <=? n); [discriminate|].
    destruct (n + 1 <? 0); [discriminate|].
    destruct (vec_set (replicate (Z.to_nat (n + 1)) 0) 0 x0) as [x1|];
      [|discriminate].
    pose proof (mc_loop_not_InvalidParameter p (Z.to_nat n) 1 x1
                  (static_gen slot entropy)) as H.
    destruct (mc_loop p (Z.to_nat n) 1 x1 (static_gen slot entropy))
      as [r gen']. exact H.
  - intros p x0 n Hn. unfold simMarkovChain.
    destruct (Z.leb_spec INT_MAX n); [unfold INT_MAX in *; lia|].
    destruct (Z.ltb_spec (n + 1) 0); [reflexivity|lia].
  - intros p x0. reflexivity.
  - intros ar expo unif jumpGenerator lambda_t lambda T rng fuel laws Hgap HT.
    assert (H : Rounded.simulateHomogeneousPoisson ar expo fuel lambda T rng
                = None).
    { apply rounded_hpp_loop_stays;
        [exact laws|exact Hgap|exact (Rounded.le_zero_zero ar laws)|exact HT]. }
    repeat apply conj.
    + exact H.
    + unfold Rounded.simulateNonHomogeneousPoisson. rewrite H. reflexivity.
    + unfold Rounded.simulateCompoundPoisson. rewrite H. reflexivity.
Qed.

(** ** Where the randomness comes from *)

(** C8 (amended): the three Poisson generators draw only from the engine
    the caller passes in, and return it advanced by their draws:
    simulateHomogeneousPoisson by one exponential draw per arrival returned
    and one more, simulateNonHomogeneousPoisson by those of its candidates
    and then one uniform draw per candidate, simulateCompoundPoisson by
    those of its arrivals and then one jump per arrival.  simMarkovChain and
    simRandomWalk take no engine: for arguments that keep their accesses in
    bounds they draw, one draw per step, from a function-static engine,
    which is the engine an earlier call left in the static slot or, when the
    slot is empty, an engine seeded from random_device; the path returned is
    determined by the parameters together with that engine, and the engine is
    left in the slot advanced by steps draws. *)
Theorem randomness_sources :
  (forall (ar : arithmetic)
          (exponential_distribution_r :
             double ar -> mt19937 -> double ar * mt19937)
          fuel lambda T rng arr rng',
     Rounded.simulateHomogeneousPoisson ar exponential_distribution_r
       fuel lambda T rng = Some (arr, rng') ->
     rng' = snd (draws_of (exponential_distribution_r lambda)
                   (S (length arr)) rng)) /\
  (forall (ar : arithmetic)
          (exponential_distribution_r :
             double ar -> mt19937 -> double ar * mt19937)
          (uniform_real_distribution01_r : mt19937 -> double ar * mt19937)
          fuel lambda_t lambdaMax T rng arr rng',
     Rounded.simulateNonHomogeneousPoisson ar exponential_distribution_r
       uniform_real_distribution01_r fuel lambda_t lambdaMax T rng
       = Some (arr, rng') ->
     exists candidates rng1,
       Rounded.simulateHomogeneousPoisson ar exponential_distribution_r
         fuel lambdaMax T rng = Some (candidates, rng1) /\
       rng1 = snd (draws_of (exponential_distribution_r lambdaMax)
                     (S (length candidates)) rng) /\
       rng' = snd (draws_of uniform_real_distribution01_r
                     (length candidates) rng1)) /\
  (forall (ar : arithmetic)
          (exponential_distribution_r :
             double ar -> mt19937 -> double ar * mt19937)
          (jumpGenerator : mt19937 -> double ar * mt19937)
          fuel lambda T rng path rng',
     Rounded.simulateCompoundPoisson ar exponential_distribution_r
       fuel lambda T rng jumpGenerator = Some (path, rng') ->
     exists rng1,
       rng1 = snd (draws_of (exponential_distribution_r lambda)
                     (S (length path)) rng) /\
       rng' = snd (draws_of jumpGenerator (length path) rng1)) /\
  (forall slot entropy p n, 0 <= n < INT_MAX ->
     let gen := match slot with
                | Some gen => gen
                | None => mt19937_seed entropy
                end in
     simRandomWalk slot entropy p n
     = (Returned (0 :: walk_from 0
                    (fst (draws (bernoulli_distribution p) (Z.to_nat n) gen))),
        Some (snd (draws (bernoulli_distribution p) (Z.to_nat n) gen)))) /\
  (forall slot entropy p x0 n,
     discrete_range_contract ->
     square_nonempty p = true -> valid_state p x0 = true ->
     0 <= n < INT_MAX ->
     let gen := match slot with
                | Some gen => gen
                | None => mt19937_seed entropy
                end in
     simMarkovChain slot entropy p x0 n
     = (Returned (x0 :: fst (chain_states p (Z.to_nat n) x0 gen)),
        Some (snd (chain_states p (Z.to_nat n) x0 gen))) /\
     length (fst (chain_states p (Z.to_nat n) x0 gen)) = Z.to_nat n).
Proof.
  repeat apply conj.
  - intros ar expo fuel lambda T rng arr rng' H.
    destruct (rounded_hpp_loop_partial_sums ar expo fuel _ _ _ _ _ _ _ H)
      as (new & over & -> & _ & _ & _ & ->). reflexivity.
  - intros ar expo unif fuel lambda_t lambdaMax T rng arr rng' H.
    unfold Rounded.simulateNonHomogeneousPoisson in H.
    destruct (Rounded.simulateHomogeneousPoisson ar expo fuel lambdaMax T rng)
      as [[candidates rng1]|] eqn:Hh; [|discriminate].
    rewrite rounded_thinning_loop_filter in H.
    inversion H; subst arr rng'; clear H.
    exists candidates, rng1. repeat apply conj; try reflexivity.
    destruct (rounded_hpp_loop_partial_sums ar expo fuel _ _ _ _ _ _ _ Hh)
      as (new & over & -> & _ & _ & _ & ->). reflexivity.
  - intros ar expo jumpGenerator fuel lambda T rng path rng' H.
    unfold Rounded.simulateCompoundPoisson in H.
    destruct (Rounded.simulateHomogeneousPoisson ar expo fuel lambda T rng)
      as [[arrivals rng1]|] eqn:Hh; [|discriminate].
    rewrite rounded_compound_loop_zip in H.
    inversion H; subst path rng'; clear H.
    assert (Hlen : length (zip arrivals
                     (Rounded.running_sums ar (d_zero ar)
                        (fst (draws_of jumpGenerator (length arrivals) rng1))))
                   = length arrivals).
    { rewrite length_zip_with, rounded_length_running_sums,
        length_draws_of. lia. }
    rewrite Hlen.
    exists rng1. split; [|reflexivity].
    destruct (rounded_hpp_loop_partial_sums ar expo fuel _ _ _ _ _ _ _ Hh)
      as (new & over & -> & _ & _ & _ & ->). reflexivity.
  - intros slot entropy p n Hn gen.
    rewrite simRandomWalk_returns by exact Hn. reflexivity.
  - intros slot entropy p x0 n Hrange Hp Hx0 Hn gen.
    pose proof (square_nonempty_draw p Hrange Hp) as Hdraw.
    split.
    + rewrite (simMarkovChain_returns p (fun _ _ => True) Hdraw)
        by assumption.
      reflexivity.
    + apply length_chain_states.
Qed.

(** ** More on the Poisson generators *)

Lemma draws_Forall {A} (d : mt19937 -> A * mt19937) (P : A -> Prop) :
  (forall g, P (fst (d g))) ->
  forall k g, Forall P (fst (draws d k g)).
Proof.
  intros HP. induction k as [|k IH]; intros g; simpl; [constructor|].
  pose proof (HP g) as Hg. destruct (d g) as [a g1]. simpl in Hg.
  specialize (IH g1). destruct (draws d k g1) as [l g2]. simpl in *.
  constructor; assumption.
Qed.



(** X4: for a horizon T <= 0 and a rate > 0 the call returns the empty
    sequence after exactly one draw, whatever the fuel. *)
Theorem simulateHomogeneousPoisson_nonpositive_horizon :
  exponential_contract ->
  forall fuel lambda T rng,
    (0 < lambda)%Q -> (T <= 0)%Q ->
    simulateHomogeneousPoisson (S fuel) lambda T rng
    = Some ([], snd (exponential_distribution lambda rng)).
Proof.
  intros Hexp fuel lambda T rng Hl HT.
  unfold simulateHomogeneousPoisson. rewrite hpp_loop_S.
  pose proof (Hexp lambda rng Hl) as Hpos.
  destruct (exponential_distribution lambda rng) as [dt rng1]. simpl in *.
  assert (E : Qltb T (0 + dt) = true) by (apply Qltb_lt; lra).
  rewrite E. reflexivity.
Qed.

Lemma thinning_loop_none (lambda_t : Q -> Q) (lambdaMax : Q) (cands : list Q) :
  uniform01_contract -> (0 < lambdaMax)%Q ->
  (forall t, (lambda_t t <= 0)%Q) ->
  forall acc rng,
    fst (thinning_loop lambda_t lambdaMax cands acc rng) = acc.
Proof.
  intros HU Hl Hneg. induction cands as [|t cands IH]; intros acc rng; simpl;
    [reflexivity|].
  destruct (HU rng) as [Hu _].
  destruct (uniform_real_distribution01 rng) as [u rng1]. simpl in Hu.
  assert (E : Qltb u (lambda_t t / lambdaMax) = false).
  { apply Qltb_ge. apply Qle_trans with 0%Q; [|exact Hu].
    apply Qle_shift_div_r; [exact Hl|]. rewrite Qmult_0_l. apply Hneg. }
  rewrite E. apply IH.
Qed.

(** X5: with a rate function that is nowhere positive (and lambdaMax > 0)
    no candidate is accepted: simulateNonHomogeneousPoisson returns the empty
    sequence whenever the candidate generation returns. *)
Theorem simulateNonHomogeneousPoisson_no_rate :
  uniform01_contract ->
  forall fuel lambda_t lambdaMax T rng,
    (0 < lambdaMax)%Q ->
    (forall t, (lambda_t t <= 0)%Q) ->
    fst <$> simulateNonHomogeneousPoisson fuel lambda_t lambdaMax T rng
    = (fun _ => []) <$> simulateHomogeneousPoisson fuel lambdaMax T rng.
Proof.
  intros HU fuel lambda_t lambdaMax T rng Hl Hneg.
  unfold simulateNonHomogeneousPoisson.
  destruct (simulateHomogeneousPoisson fuel lambdaMax T rng)
    as [[cands rng1]|]; simpl; [|reflexivity].
  f_equal. apply (thinning_loop_none lambda_t lambdaMax cands HU Hl Hneg []).
Qed.

Lemma thinning_loop_all (lambda_t : Q -> Q) (lambdaMax : Q) (cands : list Q) :
  uniform01_contract -> (0 < lambdaMax)%Q ->
  (forall t, (lambdaMax <= lambda_t t)%Q) ->
  forall acc rng,
    fst (thinning_loop lambda_t lambdaMax cands acc rng) = acc ++ cands.
Proof.
  intros HU Hl Hbig. induction cands as [|t cands IH]; intros acc rng; simpl.
  - rewrite app_nil_r. reflexivity.
  - destruct (HU rng) as [_ Hu].
    destruct (uniform_real_distribution01 rng) as [u rng1]. simpl in Hu.
    assert (E : Qltb u (lambda_t t / lambdaMax) = true).
    { apply Qltb_lt. apply Qlt_le_trans with 1%Q; [exact Hu|].
      apply Qle_shift_div_l; [exact Hl|]. rewrite Qmult_1_l. apply Hbig. }
    rewrite E, IH, <- app_assoc. reflexivity.
Qed.

(** X6: the bound lambdaMax is not checked against the rate function: where
    the rate function is at least lambdaMax everywhere, every candidate is
    accepted and the call returns the candidate sequence itself, the same as
    for the constant rate lambdaMax. *)
Theorem simulateNonHomogeneousPoisson_rate_above_bound :
  uniform01_contract ->
  forall fuel lambda_t lambdaMax T rng,
    (0 < lambdaMax)%Q ->
    (forall t, (lambdaMax <= lambda_t t)%Q) ->
    fst <$> simulateNonHomogeneousPoisson fuel lambda_t lambdaMax T rng
    = fst <$> simulateHomogeneousPoisson fuel lambdaMax T rng.
Proof.
  intros HU fuel lambda_t lambdaMax T rng Hl Hbig.
  unfold simulateNonHomogeneousPoisson.
  destruct (simulateHomogeneousPoisson fuel lambdaMax T rng)
    as [[cands rng1]|]; simpl; [|reflexivity].
  f_equal. apply (thinning_loop_all lambda_t lambdaMax cands HU Hl Hbig []).
Qed.

Lemma filter_impl_sublist {A B} (f g : A * B -> bool) (l : list (A * B)) :
  (forall x, f x = true -> g x = true) ->
  map fst (List.filter f l) `sublist_of` map fst (List.filter g l).
Proof.
  intros Hfg. induction l as [|x l IH]; simpl; [constructor|].
  destruct (f x) eqn:Ef.
  - rewrite (Hfg x Ef). simpl. apply sublist_skip, IH.
  - destruct (g x); simpl; [apply sublist_cons, IH|exact IH].
Qed.

(** X7: thinning is monotone in the rate function: from the same engine, a
    pointwise larger rate function accepts every time the smaller one
    accepts, so the smaller output is a subsequence of the larger one, and
    both calls leave the engine in the same state. *)
Theorem simulateNonHomogeneousPoisson_monotone :
  forall fuel lambda1 lambda2 lambdaMax T rng out1 rng1,
    (0 < lambdaMax)%Q ->
    (forall t, (lambda1 t <= lambda2 t)%Q) ->
    simulateNonHomogeneousPoisson fuel lambda1 lambdaMax T rng
      = Some (out1, rng1) ->
    exists out2,
      simulateNonHomogeneousPoisson fuel lambda2 lambdaMax T rng
        = Some (out2, rng1) /\
      out1 `sublist_of` out2.
Proof.
  intros fuel lambda1 lambda2 lambdaMax T rng out1 rng1 Hl Hle H.
  unfold simulateNonHomogeneousPoisson in *.
  destruct (simulateHomogeneousPoisson fuel lambdaMax T rng)
    as [[cands g1]|]; [|discriminate].
  rewrite thinning_loop_filter in H. rewrite thinning_loop_filter.
  inversion H; subst out1 rng1; clear H. simpl.
  eexists. split; [reflexivity|].
  apply filter_impl_sublist. intros [t u]. unfold accepts. simpl.
  rewrite !Qltb_lt. intros Hu.
  apply Qlt_le_trans with (lambda1 t / lambdaMax)%Q; [exact Hu|].
  unfold Qdiv. apply Qmult_le_compat_r; [apply Hle|].
  apply Qlt_le_weak, Qinv_lt_0_compat, Hl.
Qed.

(** ** More on the compound process *)


Lemma running_sums_sorted (js : list Q) :
  Forall (fun j => (0 <= j)%Q) js ->
  forall v, StronglySorted Qle (running_sums v js) /\
            Forall (fun x => (v <= x)%Q) (running_sums v js).
Proof.
  induction 1 as [|j js Hj _ IH]; intros v; simpl.
  - split; constructor.
  - destruct (IH (v + j)%Q) as [Hs Hf]. split.
    + constructor; assumption.
    + constructor; [lra|].
      eapply Forall_impl; [exact Hf|]. simpl. intros x Hx. lra.
Qed.

(** X9: when no jump drawn is negative, the values of a path returned by
    simulateCompoundPoisson never decrease along the path. *)
Theorem simulateCompoundPoisson_nondecreasing :
  forall fuel lambda T rng jumpGenerator path rng',
    (forall g, (0 <= fst (jumpGenerator g))%Q) ->
    simulateCompoundPoisson fuel lambda T rng jumpGenerator
      = Some (path, rng') ->
    StronglySorted Qle (map snd path).
Proof.
  intros fuel lambda T rng jumpGenerator path rng' Hj H.
  unfold simulateCompoundPoisson in H.
  destruct (simulateHomogeneousPoisson fuel lambda T rng)
    as [[arrivals g1]|]; [|discriminate].
  rewrite compound_loop_zip in H. simpl in H.
  inversion H; subst path rng'; clear H.
  set (jumps := fst (draws jumpGenerator (length arrivals) g1)) in *.
  assert (Hlen : length (running_sums 0 jumps) = length arrivals).
  { rewrite length_running_sums. apply length_draws. }
  rewrite snd_zip by lia.
  apply running_sums_sorted.
  apply (draws_Forall jumpGenerator (fun j => (0 <= j)%Q) Hj).
Qed.

(** X10: the rate function of the demonstration stays between 0 and 4, the
    bound lambdaMax that main passes with it: the acceptance ratio
    exampleLambda(t) / 4.0 is a probability. *)
Theorem exampleLambda_within_bound :
  sin_contract ->
  forall t,
    (0 <= exampleLambda t)%Q /\ (exampleLambda t <= 4.0)%Q /\
    (0 <= exampleLambda t / 4.0)%Q /\ (exampleLambda t / 4.0 <= 1)%Q.
Proof.
  intros Hsin t. unfold exampleLambda.
  destruct (Hsin (0.1 * M_PI * t)%Q) as [Hlo Hhi].
  set (s0 := sin (0.1 * M_PI * t)%Q) in *.
  assert (H0 : (0 <= 2.0 + 2.0 * s0)%Q) by lra.
  assert (H4 : (2.0 + 2.0 * s0 <= 4.0)%Q) by lra.
  repeat split; try assumption.
  - apply Qle_shift_div_l; [reflexivity|]. lra.
  - apply Qle_shift_div_r; [reflexivity|]. lra.
Qed.


(** ** More on the Markov chain *)

Lemma invalid_state_no_row (p : list (list Q)) (s : Z) :
  valid_state p s = false -> vec_at p s = None.
Proof.
  unfold valid_state, vec_at. intros H.
  destruct (Z.leb_spec 0 s); [|reflexivity].
  destruct (Z.ltb_spec s (Z.of_nat (length p))); [discriminate|].
  apply lookup_ge_None. lia.
Qed.

(** X12: the initial state is not checked.  With zero steps the call returns
    the one-state path [x0] for every matrix and every x0, drawing nothing;
    with an x0 that is no row index and 1 <= n < INT_MAX the first iteration
    reads p[x0] outside the matrix, before any draw. *)
Theorem simMarkovChain_initial_state_unchecked :
  forall slot entropy p x0,
    simMarkovChain slot entropy p x0 0
      = (Returned [x0], Some (static_gen slot entropy)) /\
    (valid_state p x0 = false ->
     forall n, 1 <= n < INT_MAX ->
       simMarkovChain slot entropy p x0 n
       = (Failed OutOfBounds, Some (static_gen slot entropy))).
Proof.
  intros slot entropy p x0. split; [reflexivity|].
  intros Hbad n Hn. unfold simMarkovChain.
  destruct (Z.leb_spec INT_MAX n); [lia|].
  destruct (Z.ltb_spec (n + 1) 0); [lia|].
  replace (Z.to_nat (n + 1)) with (S (Z.to_nat n)) by lia.
  change (replicate (S (Z.to_nat n)) 0)
    with ([] ++ 0 :: replicate (Z.to_nat n) 0).
  rewrite (vec_set_middle []) by reflexivity.
  destruct (Z.to_nat n) as [|k] eqn:Ek; [lia|].
  simpl. rewrite (invalid_state_no_row p x0 Hbad). reflexivity.
Qed.

Lemma last_cons_default (l : list Z) :
  forall a b, default a (last (b :: l)) = default b (last l).
Proof.
  induction l as [|y l IH]; intros a b; [reflexivity|].
  change (last (b :: y :: l)) with (last (y :: l)).
  rewrite (IH a y), (IH b y). reflexivity.
Qed.

Lemma chain_states_app (p : list (list Q)) (n m : nat) :
  forall cur gen,
    chain_states p (n + m) cur gen =
    (fst (chain_states p n cur gen)
     ++ fst (chain_states p m
               (default cur (last (fst (chain_states p n cur gen))))
               (snd (chain_states p n cur gen))),
     snd (chain_states p m
            (default cur (last (fst (chain_states p n cur gen))))
            (snd (chain_states p n cur gen)))).
Proof.
  induction n as [|n IH]; intros cur gen; simpl.
  - destruct (chain_states p m cur gen); reflexivity.
  - destruct (discrete_distribution (default [] (vec_at p cur)) gen)
      as [next gen1].
    rewrite (IH next gen1).
    destruct (chain_states p n next gen1) as [l1 g1]. simpl.
    rewrite (last_cons_default l1 cur next).
    destruct (chain_states p m (default next (last l1)) g1); reflexivity.
Qed.

(** X13: calls compose.  For a square matrix without empty rows, a call with
    n steps followed by a call with m steps from the state where the first
    path ended produces, joined, the path of one call with n + m steps: the
    second call continues the static engine where the first one left it. *)
Theorem simMarkovChain_composes :
  discrete_range_contract ->
  forall slot entropy entropy' p x0 n m,
    square_nonempty p = true -> valid_state p x0 = true ->
    0 <= n -> 0 <= m -> n + m < INT_MAX ->
    exists path1 slot1 last1 path2 slot2,
      simMarkovChain slot entropy p x0 n = (Returned path1, slot1) /\
      last path1 = Some last1 /\
      simMarkovChain slot1 entropy' p last1 m = (Returned path2, slot2) /\
      simMarkovChain slot entropy p x0 (n + m)
        = (Returned (path1 ++ tail path2), slot2).
Proof.
  intros Hrange slot entropy entropy' p x0 n m Hp Hx0 Hn Hm Hmax.
  pose proof (square_nonempty_draw p Hrange Hp) as Hdraw.
  set (g := static_gen slot entropy).
  destruct (chain_states_steps p (fun _ _ => True) Hdraw (Z.to_nat n) x0 g Hx0)
    as [Hvalid _].
  set (l1 := fst (chain_states p (Z.to_nat n) x0 g)) in *.
  set (g1 := snd (chain_states p (Z.to_nat n) x0 g)).
  set (last1 := default x0 (last l1)).
  assert (Hlast1 : valid_state p last1 = true).
  { subst last1. destruct (last l1) as [y|] eqn:E; [|exact Hx0]. simpl.
    rewrite Forall_forall in Hvalid. apply Hvalid.
    rewrite last_lookup in E. eapply list_elem_of_lookup_2. exact E. }
  exists (x0 :: l1), (Some g1), last1,
    (last1 :: fst (chain_states p (Z.to_nat m) last1 g1)),
    (Some (snd (chain_states p (Z.to_nat m) last1 g1))).
  repeat apply conj.
  - apply (simMarkovChain_returns p (fun _ _ => True) Hdraw); [assumption|lia].
  - subst last1. destruct l1 as [|y l1']; [reflexivity|].
    change (last (x0 :: y :: l1')) with (last (y :: l1')).
    destruct (last (y :: l1')) eqn:E; [reflexivity|].
    apply last_None in E. discriminate.
  - apply (simMarkovChain_returns p (fun _ _ => True) Hdraw (Some g1));
      [assumption|lia].
  - rewrite (simMarkovChain_returns p (fun _ _ => True) Hdraw)
      by (assumption || lia).
    replace (Z.to_nat (n + m)) with (Z.to_nat n + Z.to_nat m)%nat by lia.
    rewrite chain_states_app. reflexivity.
Qed.

Lemma simMarkovChain_positive_steps :
  discrete_support_contract ->
  forall slot entropy p x0 n path slot',
    valid_transition_matrix p = true -> valid_state p x0 = true ->
    simMarkovChain slot entropy p x0 n = (Returned path, slot') ->
    0 <= n ->
    forall (i : nat) (a b : Z),
      path !! i = Some a -> path !! S i = Some b ->
      exists w, transition_probability p a b = Some w /\ (0 < w)%Q.
Proof.
  intros Hsup slot entropy p x0 n path slot' Hp Hx0 H Hn.
  pose proof (valid_matrix_draw p Hsup Hp) as Hdraw.
  set (good := fun s s' : Z =>
                 exists w, transition_probability p s s' = Some w /\ (0 < w)%Q).
  pose proof (simMarkovChain_Returned_range _ _ _ _ _ _ _ H) as Hr.
  rewrite (simMarkovChain_returns p good Hdraw) in H by (assumption || lia).
  inversion H; subst path slot'; clear H.
  destruct (chain_states_steps p good Hdraw (Z.to_nat n) x0
              (static_gen slot entropy) Hx0) as [_ Hsteps].
  exact Hsteps.
Qed.

(** X14: an absorbing state holds the chain.  For a valid matrix, when the
    row of state s gives positive probability to s alone, a returned path
    that is in s at some index is in s at every later index. *)
Theorem simMarkovChain_absorbing :
  discrete_support_contract ->
  forall slot entropy p x0 n path slot' s,
    valid_transition_matrix p = true -> valid_state p x0 = true -> 0 <= n ->
    (forall s' w, transition_probability p s s' = Some w -> (0 < w)%Q ->
                  s' = s) ->
    simMarkovChain slot entropy p x0 n = (Returned path, slot') ->
    forall i j : nat,
      (i <= j)%nat -> (j < length path)%nat ->
      path !! i = Some s -> path !! j = Some s.
Proof.
  intros Hsup slot entropy p x0 n path slot' s Hp Hx0 Hn Habs H i j Hij.
  pose proof (simMarkovChain_positive_steps Hsup _ _ _ _ _ _ _ Hp Hx0 H Hn)
    as Hsteps.
  induction Hij as [|j Hij IH]; intros Hj Hi; [exact Hi|].
  assert (Hprev : path !! j = Some s) by (apply IH; [lia|exact Hi]).
  destruct (lookup_lt_is_Some_2 path (S j) Hj) as [b Hb].
  destruct (Hsteps j s b Hprev Hb) as (w & Hw & Hpos).
  rewrite Hb. f_equal. eapply Habs; eassumption.
Qed.



(** ** More on the random walk *)

Lemma successes_bounds (l : list bool) :
  0 <= successes l <= Z.of_nat (length l).
Proof.
  induction l as [|b l IH]; simpl; [lia|]. destruct b; lia.
Qed.

Lemma successes_take_le (l : list bool) :
  forall i j : nat, (i <= j)%nat ->
    0 <= successes (take j l) - successes (take i l) <= Z.of_nat j - Z.of_nat i.
Proof.
  induction l as [|b l IH]; intros i j Hij.
  - rewrite !take_nil. simpl. lia.
  - destruct i as [|i].
    + simpl (take 0 _). simpl (successes []).
      pose proof (successes_bounds (take j (b :: l))) as H.
      pose proof (length_take (b :: l) j). lia.
    + destruct j as [|j]; [lia|]. simpl.
      specialize (IH i j ltac:(lia)). lia.
Qed.

Lemma walk_from_closed (steps : list bool) :
  forall pos (i : nat) x,
    walk_from pos steps !! i = Some x ->
    x = pos + 2 * successes (take (S i) steps) - Z.of_nat (S i).
Proof.
  induction steps as [|b steps IH]; intros pos i x Hx; [destruct i; discriminate|].
  destruct i as [|i]; simpl in Hx.
  - inversion Hx; subst x. simpl. destruct b; lia.
  - specialize (IH _ _ _ Hx).
    change (take (S (S i)) (b :: steps)) with (b :: take (S i) steps).
    simpl successes. destruct b; lia.
Qed.

Lemma simRandomWalk_closed :
  forall slot entropy p n path slot',
    0 <= n ->
    simRandomWalk slot entropy p n = (Returned path, slot') ->
    forall (i : nat) x, path !! i = Some x ->
      x = 2 * successes
                (take i (fst (draws (bernoulli_distribution p) (Z.to_nat n)
                                (static_gen slot entropy))))
          - Z.of_nat i.
Proof.
  intros slot entropy p n path slot' Hn H i x Hx.
  pose proof (simRandomWalk_Returned_range _ _ _ _ _ _ H) as Hr.
  rewrite simRandomWalk_returns in H by lia.
  inversion H; subst path slot'; clear H.
  destruct i as [|i]; simpl in Hx.
  - inversion Hx; subst x. reflexivity.
  - apply walk_from_closed in Hx. lia.
Qed.

(** X16: in a path returned by simRandomWalk for n >= 0, the position at
    index i is twice the number of successes among the first i Bernoulli
    draws, minus i. *)
Theorem simRandomWalk_closed_form :
  forall slot entropy p n path slot',
    0 <= n ->
    simRandomWalk slot entropy p n = (Returned path, slot') ->
    forall (i : nat) x, path !! i = Some x ->
      x = 2 * successes
                (take i (fst (draws (bernoulli_distribution p) (Z.to_nat n)
                                (static_gen slot entropy))))
          - Z.of_nat i.
Proof.
  intros slot entropy p n path slot' Hn H i x Hx.
  exact (simRandomWalk_closed slot entropy p n path slot' Hn H i x Hx).
Qed.

(** X17: between two indices i <= j of a returned path the walk moves by at
    most j - i, and by an amount of the parity of j - i. *)
Theorem simRandomWalk_lipschitz :
  forall slot entropy p n path slot',
    0 <= n ->
    simRandomWalk slot entropy p n = (Returned path, slot') ->
    forall (i j : nat) a b,
      (i <= j)%nat -> path !! i = Some a -> path !! j = Some b ->
      Z.abs (b - a) <= Z.of_nat j - Z.of_nat i /\
      Z.even (b - a + (Z.of_nat j - Z.of_nat i)) = true.
Proof.
  intros slot entropy p n path slot' Hn H i j a b Hij Ha Hb.
  pose proof (simRandomWalk_closed _ _ _ _ _ _ Hn H i a Ha) as Ea.
  pose proof (simRandomWalk_closed _ _ _ _ _ _ Hn H j b Hb) as Eb.
  set (steps := fst (draws (bernoulli_distribution p) (Z.to_nat n)
                       (static_gen slot entropy))) in *.
  pose proof (successes_take_le steps i j Hij) as Hs.
  split; [lia|].
  replace (b - a + (Z.of_nat j - Z.of_nat i))
    with (2 * (successes (take j steps) - successes (take i steps))) by lia.
  rewrite Z.even_mul. reflexivity.
Qed.

Lemma draws_app {A} (d : mt19937 -> A * mt19937) (n m : nat) :
  forall g,
    draws d (n + m) g =
    (fst (draws d n g) ++ fst (draws d m (snd (draws d n g))),
     snd (draws d m (snd (draws d n g)))).
Proof.
  induction n as [|n IH]; intros g; simpl.
  - destruct (draws d m g); reflexivity.
  - destruct (d g) as [a g1]. rewrite (IH g1).
    destruct (draws d n g1) as [l1 g2]. simpl.
    destruct (draws d m g2); reflexivity.
Qed.

Lemma walk_from_app (l1 l2 : list bool) :
  forall pos,
    walk_from pos (l1 ++ l2)
    = walk_from pos l1
      ++ walk_from (default pos (last (walk_from pos l1))) l2.
Proof.
  induction l1 as [|b l1 IH]; intros pos; simpl; [reflexivity|].
  rewrite IH. f_equal. f_equal. f_equal.
  symmetry. apply last_cons_default.
Qed.

Lemma walk_from_shift (l : list bool) :
  forall pos, walk_from pos l = map (Z.add pos) (walk_from 0 l).
Proof.
  assert (H : forall pos q, walk_from (pos + q) l
                            = map (Z.add pos) (walk_from q l)).
  { induction l as [|b l IH]; intros pos q; simpl; [reflexivity|].
    rewrite <- IH. f_equal; [lia|]. f_equal. lia. }
  intros pos. rewrite <- (H pos 0). f_equal. lia.
Qed.

(** X18: calls compose.  A call with n steps followed by a call with m steps
    gives, with the second path moved to where the first one ended, the path
    of one call with n + m steps: the second call continues the static engine
    where the first one left it. *)
Theorem simRandomWalk_composes :
  forall slot entropy entropy' p n m,
    0 <= n -> 0 <= m -> n + m < INT_MAX ->
    exists path1 slot1 last1 path2 slot2,
      simRandomWalk slot entropy p n = (Returned path1, slot1) /\
      last path1 = Some last1 /\
      simRandomWalk slot1 entropy' p m = (Returned path2, slot2) /\
      simRandomWalk slot entropy p (n + m)
        = (Returned (path1 ++ map (Z.add last1) (tail path2)), slot2).
Proof.
  intros slot entropy entropy' p n m Hn Hm Hmax.
  set (g := static_gen slot entropy).
  set (d := bernoulli_distribution p).
  set (l1 := fst (draws d (Z.to_nat n) g)).
  set (g1 := snd (draws d (Z.to_nat n) g)).
  set (l2 := fst (draws d (Z.to_nat m) g1)).
  set (last1 := default 0 (last (walk_from 0 l1))).
  exists (0 :: walk_from 0 l1), (Some g1), last1,
    (0 :: walk_from 0 l2), (Some (snd (draws d (Z.to_nat m) g1))).
  repeat apply conj.
  - apply simRandomWalk_returns. lia.
  - subst last1. destruct (walk_from 0 l1) as [|y w]; [reflexivity|].
    change (last (0 :: y :: w)) with (last (y :: w)).
    destruct (last (y :: w)) eqn:E; [reflexivity|].
    apply last_None in E. discriminate.
  - apply (simRandomWalk_returns (Some g1)). lia.
  - rewrite simRandomWalk_returns by lia.
    replace (Z.to_nat (n + m)) with (Z.to_nat n + Z.to_nat m)%nat by lia.
    fold g d. rewrite draws_app. simpl fst. simpl snd.
    fold l1 g1 l2. rewrite walk_from_app. fold last1.
    rewrite (walk_from_shift l2 last1). reflexivity.
Qed.

Lemma print_walk_loop_lines (rest : list Z) :
  forall done0,
    print_walk_loop (length rest) (Z.of_nat (length done0)) (done0 ++ rest)
    = Returned (walk_lines (Z.of_nat (length done0)) rest).
Proof.
  induction rest as [|v rest IH]; intros done0; [reflexivity|].
  simpl. rewrite (vec_at_middle done0) by reflexivity.
  replace (done0 ++ v :: rest) with ((done0 ++ [v]) ++ rest)
    by (rewrite <- app_assoc; reflexivity).
  replace (Z.of_nat (length done0) + 1) with (Z.of_nat (length (done0 ++ [v])))
    by (rewrite length_app; simpl; lia).
  rewrite IH. reflexivity.
Qed.

(** X19: main of the random walk program never reads outside the path: it
    prints 101 lines "Step i: position", for i = 0..100 in order, the first
    position being 0 and the i-th at most i away from 0. *)
Theorem walk_main_output :
  forall entropy,
    exists path,
      walk_main entropy = Returned (walk_lines 0 path) /\
      length path = 101%nat /\
      path !! 0%nat = Some 0 /\
      forall (i : nat) x, path !! i = Some x -> Z.abs x <= Z.of_nat i.
Proof.
  intros entropy.
  pose proof (simRandomWalk_returns None entropy 0.5 100
                ltac:(unfold INT_MAX; lia)) as Hret.
  set (steps := fst (draws (bernoulli_distribution 0.5) (Z.to_nat 100)
                       (static_gen None entropy))) in *.
  assert (Hlen : length (0 :: walk_from 0 steps) = 101%nat).
  { simpl. rewrite length_walk_from. subst steps. rewrite length_draws.
    reflexivity. }
  pose proof (print_walk_loop_lines (0 :: walk_from 0 steps) []) as Hprint.
  change (Z.of_nat (length [])) with 0 in Hprint.
  change ([] ++ 0 :: walk_from 0 steps) with (0 :: walk_from 0 steps) in Hprint.
  rewrite Hlen in Hprint.
  exists (0 :: walk_from 0 steps). unfold walk_main. rewrite Hret.
  cbv beta iota zeta. change (Z.to_nat (100 + 1)) with 101%nat.
  rewrite Hprint. repeat apply conj; try reflexivity; try exact Hlen.
  intros i x Hx. destruct i as [|i]; simpl in Hx.
  - inversion Hx. simpl. lia.
  - destruct (walk_from_bound_parity steps 0 0 i x) as [H1 _];
      [simpl; lia|reflexivity|exact Hx|lia].
Qed.

(** ** The Monte Carlo estimate *)

Lemma pi_loop_count (k : nat) :
  forall c rng,
    pi_loop k c rng =
    (c + Z.of_nat (length (List.filter inside_circle
                             (fst (draws_of draw_point k rng)))),
     snd (draws_of draw_point k rng)).
Proof.
  induction k as [|k IH]; intros c rng; simpl.
  - f_equal. lia.
  - unfold draw_point at 1 3.
    destruct (uniform_real_distribution_m11 rng) as [x rng1].
    destruct (uniform_real_distribution_m11 rng1) as [y rng2].
    rewrite IH.
    destruct (draws_of draw_point k rng2) as [pts rng3]. simpl.
    unfold inside_circle at 2. simpl.
    destruct (Qle_bool (x * x + y * y) 1.0); simpl; f_equal; lia.
Qed.

Lemma filter_length_le {A} (f : A -> bool) (l : list A) :
  (length (List.filter f l) <= length l)%nat.
Proof.
  induction l as [|x l IH]; simpl; [lia|]. destruct (f x); simpl; lia.
Qed.

Lemma piEstimate_range (N : Z) (rng : mt19937_64) :
  0 < N -> (0 <= piEstimate N rng)%Q /\ (piEstimate N rng <= 4)%Q.
Proof.
  intros HN. unfold piEstimate. rewrite pi_loop_count. simpl fst.
  set (pts := fst (draws_of draw_point (Z.to_nat N) rng)).
  pose proof (filter_length_le inside_circle pts) as Hle.
  assert (Hlen : length pts = Z.to_nat N) by apply length_draws_of.
  set (c := 0 + Z.of_nat (length (List.filter inside_circle pts))).
  assert (Hc : 0 <= c <= N) by (subst c; lia).
  assert (HNq : (0 < inject_Z N)%Q).
  { change 0%Q with (inject_Z 0). rewrite <- Zlt_Qlt. exact HN. }
  assert (H0 : (0 <= inject_Z c / inject_Z N)%Q).
  { apply Qle_shift_div_l; [exact HNq|]. rewrite Qmult_0_l.
    change 0%Q with (inject_Z 0). rewrite <- Zle_Qle. lia. }
  assert (H1 : (inject_Z c / inject_Z N <= 1)%Q).
  { apply Qle_shift_div_r; [exact HNq|]. rewrite Qmult_1_l.
    rewrite <- Zle_Qle. lia. }
  set (r := (inject_Z c / inject_Z N)%Q) in *. split; lra.
Qed.

(** X21: for every sample size N > 0 and every engine the estimate
    4.0 * (count / N) lies between 0 and 4; so does the number that main
    prints. *)
Theorem piEstimate_between_0_and_4 :
  (forall N rng, 0 < N ->
     (0 <= piEstimate N rng)%Q /\ (piEstimate N rng <= 4)%Q) /\
  exists v, pi_main = [Text "Estimated Pi = "; Double v; Endl] /\
            (0 <= v)%Q /\ (v <= 4)%Q.
Proof.
  split.
  - intros N rng HN. apply piEstimate_range. exact HN.
  - eexists. split; [reflexivity|].
    apply piEstimate_range. lia.
Qed.

End Generators.

(** * The arithmetic of the machine meets the laws

    What follows derives [Rounded.ieee_laws binary64] from the specification
    of Rocq's primitive floats: a float stands for a [spec_float], the
    comparisons are [SFltb] and [SFleb], the sum is [SFadd] at precision 53
    with round to nearest, ties to even. *)

(** ** The order of binary64 *)

Lemma SFcompare_antisym (x y : spec_float) :
  SFcompare y x = option_map CompOpp (SFcompare x y).
Proof.
  destruct x as [sx|sx| |sx mx ex], y as [sy|sy| |sy my ey]; simpl;
    try reflexivity;
    try (destruct sx; reflexivity); try (destruct sy; reflexivity);
    try (destruct sx, sy; reflexivity).
  change (Pos.compare_cont Eq my mx) with (Pos.compare my mx).
  change (Pos.compare_cont Eq mx my) with (Pos.compare mx my).
  rewrite (Z.compare_antisym ex ey), (Pos.compare_antisym mx my).
  destruct sx, sy; simpl; try reflexivity;
    destruct (ex ?= ey); simpl; try reflexivity;
    destruct (mx ?= my)%positive; reflexivity.
Qed.

Lemma SFleb_refl_of (x y : spec_float) :
  SFleb x y = true -> SFleb x x = true /\ SFleb y y = true.
Proof.
  unfold SFleb.
  destruct x as [sx|sx| |sx mx ex], y as [sy|sy| |sy my ey]; simpl;
    try discriminate; intros _; split; try reflexivity;
    try (destruct sx; reflexivity); try (destruct sy; reflexivity);
    match goal with
    | |- context [Z.compare ?e ?e] =>
        rewrite (Z.compare_refl e);
        change (Pos.compare_cont Eq ?m ?m) with (Pos.compare m m);
        rewrite Pos.compare_refl
    end;
    try (destruct sx; reflexivity); try (destruct sy; reflexivity).
Qed.

Lemma SFltb_leb (x y : spec_float) : SFltb x y = true -> SFleb x y = true.
Proof.
  unfold SFltb, SFleb. destruct (SFcompare x y) as [[| |]|]; congruence.
Qed.

Lemma SFleb_not_ltb (x y : spec_float) : SFleb x y = true -> SFltb y x = false.
Proof.
  unfold SFltb, SFleb. rewrite (SFcompare_antisym x y).
  destruct (SFcompare x y) as [[| |]|]; simpl; congruence.
Qed.

Lemma SFnot_ltb_leb (x y : spec_float) :
  SFleb x x = true -> SFleb y y = true -> SFltb x y = false -> SFleb y x = true.
Proof.
  unfold SFltb, SFleb. rewrite (SFcompare_antisym x y).
  destruct x as [sx|sx| |sx mx ex], y as [sy|sy| |sy my ey]; simpl;
    try discriminate; intros _ _;
    try (destruct sx; simpl; congruence); try (destruct sy; simpl; congruence);
    try (destruct sx, sy; simpl; congruence).
  destruct sx, sy; simpl; try congruence;
    destruct (ex ?= ey); simpl; try congruence;
    destruct (Pos.compare_cont Eq mx my); simpl; congruence.
Qed.

(** The order on finite numbers of one sign is lexicographic; a number is
    ranked by three integers. *)
Definition SFrank (x : spec_float) : option (Z * Z * Z) :=
  match x with
  | S754_nan => None
  | S754_zero _ => Some (0, 0, 0)
  | S754_infinity s => Some (if s then -2 else 2, 0, 0)
  | S754_finite s m e => Some (if s then (-1, - e, Z.neg m) else (1, e, Z.pos m))
  end.

Definition rank_cmp (a b : Z * Z * Z) : comparison :=
  let '(a1, a2, a3) := a in
  let '(b1, b2, b3) := b in
  match a1 ?= b1 with
  | Eq => match a2 ?= b2 with Eq => a3 ?= b3 | c => c end
  | c => c
  end.

Lemma SFcompare_rank (x y : spec_float) :
  SFcompare x y =
  match SFrank x, SFrank y with
  | Some a, Some b => Some (rank_cmp a b)
  | _, _ => None
  end.
Proof.
  destruct x as [sx|sx| |sx mx ex], y as [sy|sy| |sy my ey]; simpl;
    try reflexivity;
    try (destruct sx; reflexivity); try (destruct sy; reflexivity);
    try (destruct sx, sy; reflexivity).
  change (Pos.compare_cont Eq mx my) with (Pos.compare mx my).
  destruct sx, sy; simpl; try reflexivity.
  rewrite Z.compare_opp, (Z.compare_antisym ex ey).
  destruct (ex ?= ey); simpl; reflexivity.
Qed.

Lemma rank_cmp_le_trans (a b c : Z * Z * Z) :
  rank_cmp a b <> Gt -> rank_cmp b c <> Gt -> rank_cmp a c <> Gt.
Proof.
  destruct a as [[a1 a2] a3], b as [[b1 b2] b3], c as [[c1 c2] c3].
  unfold rank_cmp.
  destruct (Z.compare_spec a1 b1), (Z.compare_spec b1 c1),
    (Z.compare_spec a1 c1); try lia; try congruence;
    destruct (Z.compare_spec a2 b2), (Z.compare_spec b2 c2),
    (Z.compare_spec a2 c2); try lia; try congruence;
    destruct (Z.compare_spec a3 b3), (Z.compare_spec b3 c3),
    (Z.compare_spec a3 c3); try lia; try congruence.
Qed.

Lemma rank_cmp_le_lt_trans (a b c : Z * Z * Z) :
  rank_cmp a b <> Gt -> rank_cmp b c = Lt -> rank_cmp a c = Lt.
Proof.
  destruct a as [[a1 a2] a3], b as [[b1 b2] b3], c as [[c1 c2] c3].
  unfold rank_cmp.
  destruct (Z.compare_spec a1 b1), (Z.compare_spec b1 c1),
    (Z.compare_spec a1 c1); try lia; try congruence;
    destruct (Z.compare_spec a2 b2), (Z.compare_spec b2 c2),
    (Z.compare_spec a2 c2); try lia; try congruence;
    destruct (Z.compare_spec a3 b3), (Z.compare_spec b3 c3),
    (Z.compare_spec a3 c3); try lia; try congruence.
Qed.

Lemma SFleb_trans (x y z : spec_float) :
  SFleb x y = true -> SFleb y z = true -> SFleb x z = true.
Proof.
  unfold SFleb. rewrite !SFcompare_rank.
  destruct (SFrank x) as [a|], (SFrank y) as [b|], (SFrank z) as [c|];
    try discriminate.
  intros H1 H2.
  pose proof (rank_cmp_le_trans a b c) as H.
  destruct (rank_cmp a b), (rank_cmp b c), (rank_cmp a c);
    try discriminate; try reflexivity; exfalso; apply H; congruence.
Qed.

Lemma SFleb_ltb_trans (x y z : spec_float) :
  SFleb x y = true -> SFltb y z = true -> SFltb x z = true.
Proof.
  unfold SFleb, SFltb. rewrite !SFcompare_rank.
  destruct (SFrank x) as [a|], (SFrank y) as [b|], (SFrank z) as [c|];
    try discriminate.
  intros H1 H2.
  pose proof (rank_cmp_le_lt_trans a b c) as H.
  destruct (rank_cmp a b), (rank_cmp b c); try discriminate;
    rewrite H; congruence.
Qed.

(** ** Rounding to nearest *)

Lemma pow2_pos (a : Z) : 0 <= a -> 0 < 2 ^ a.
Proof. intros H. apply Z.pow_pos_nonneg; lia. Qed.

Lemma pow2_add (a b : Z) : 0 <= a -> 0 <= b -> 2 ^ (a + b) = 2 ^ a * 2 ^ b.
Proof. intros Ha Hb. apply Z.pow_add_r; assumption. Qed.

Lemma pow2_le (a b : Z) : 0 <= a <= b -> 2 ^ a <= 2 ^ b.
Proof. intros H. apply Z.pow_le_mono_r; lia. Qed.

Lemma digits2_pos_bounds (m : positive) :
  2 ^ (Z.pos (digits2_pos m) - 1) <= Z.pos m < 2 ^ Z.pos (digits2_pos m).
Proof.
  induction m as [m IH|m IH|]; cbn [digits2_pos].
  - rewrite Pos2Z.inj_succ. change (Z.pos m~1) with (2 * Z.pos m + 1).
    replace (Z.succ (Z.pos (digits2_pos m)) - 1)
      with (Z.succ (Z.pos (digits2_pos m) - 1)) by lia.
    rewrite !Z.pow_succ_r by lia. lia.
  - rewrite Pos2Z.inj_succ. change (Z.pos m~0) with (2 * Z.pos m).
    replace (Z.succ (Z.pos (digits2_pos m)) - 1)
      with (Z.succ (Z.pos (digits2_pos m) - 1)) by lia.
    rewrite !Z.pow_succ_r by lia. lia.
  - simpl. lia.
Qed.

Lemma digits2_pos_unique (m : positive) (k : Z) :
  2 ^ (k - 1) <= Z.pos m < 2 ^ k -> Z.pos (digits2_pos m) = k.
Proof.
  intros [Hlo Hhi]. pose proof (digits2_pos_bounds m) as [Dlo Dhi].
  set (d := Z.pos (digits2_pos m)) in *.
  assert (Hd : 0 < d) by (subst d; lia).
  assert (Hk : 0 < k).
  { destruct (Z.lt_ge_cases 0 k) as [H|H]; [exact H|].
    exfalso. destruct (Z.eq_dec k 0) as [->|Hn].
    - simpl in Hhi. lia.
    - rewrite Z.pow_neg_r in Hhi by lia. lia. }
  destruct (Z.lt_trichotomy d k) as [H|[H|H]]; [|exact H|].
  - exfalso. assert (2 ^ d <= 2 ^ (k - 1)) by (apply pow2_le; lia). lia.
  - exfalso. assert (2 ^ k <= 2 ^ (d - 1)) by (apply pow2_le; lia). lia.
Qed.

Lemma shr_m_shr_1 (mrs : shr_record) :
  0 <= shr_m mrs -> shr_m (shr_1 mrs) = shr_m mrs / 2.
Proof.
  destruct mrs as [m r s]. simpl. intros Hm.
  rewrite <- Z.div2_div.
  destruct m as [|[p|p|]|p]; try reflexivity. lia.
Qed.

Lemma shr_m_iter_pos (p : positive) :
  forall mrs, 0 <= shr_m mrs ->
    shr_m (SpecFloat.iter_pos shr_1 p mrs) = shr_m mrs / 2 ^ Z.pos p.
Proof.
  induction p as [p IH|p IH|]; intros mrs Hm; cbn [SpecFloat.iter_pos].
  - assert (H1 : 0 <= shr_m (shr_1 mrs))
      by (rewrite shr_m_shr_1 by exact Hm; apply Z.div_pos; lia).
    assert (H2 : 0 <= shr_m (SpecFloat.iter_pos shr_1 p (shr_1 mrs)))
      by (rewrite IH by exact H1; apply Z.div_pos; [exact H1|apply pow2_pos; lia]).
    rewrite IH by exact H2. rewrite IH by exact H1.
    rewrite shr_m_shr_1 by exact Hm.
    pose proof (pow2_pos (Z.pos p)) as Hp.
    rewrite !Z.div_div by lia.
    f_equal. change (Z.pos p~1) with (2 * Z.pos p + 1).
    replace (2 * Z.pos p + 1) with (1 + Z.pos p + Z.pos p) by lia.
    rewrite !pow2_add by lia. change (2 ^ 1) with 2. lia.
  - assert (H2 : 0 <= shr_m (SpecFloat.iter_pos shr_1 p mrs))
      by (rewrite IH by exact Hm; apply Z.div_pos; [exact Hm|apply pow2_pos; lia]).
    rewrite IH by exact H2. rewrite IH by exact Hm.
    pose proof (pow2_pos (Z.pos p)) as Hp.
    rewrite !Z.div_div by lia.
    f_equal. change (Z.pos p~0) with (2 * Z.pos p).
    replace (2 * Z.pos p) with (Z.pos p + Z.pos p) by lia.
    rewrite !pow2_add by lia. lia.
  - rewrite shr_m_shr_1 by exact Hm. reflexivity.
Qed.

Lemma shr_m_record_of_loc (m : Z) (l : location) :
  shr_m (shr_record_of_loc m l) = m.
Proof. destruct l as [|[| |]]; reflexivity. Qed.

Lemma round_nearest_even_bounds (m : Z) (l : location) :
  m <= round_nearest_even m l <= m + 1.
Proof.
  unfold round_nearest_even.
  destruct l as [|[| |]]; try lia. destruct (Z.even m); lia.
Qed.

Section Rounding.

Variables prec emax : Z.
Hypothesis Hprec : 0 < prec.

Local Abbreviation emin := (SpecFloat.emin prec emax).
Local Abbreviation fexp := (SpecFloat.fexp prec emax).

Lemma fexp_ge_emin (e : Z) : emin <= fexp e.
Proof. unfold SpecFloat.fexp. lia. Qed.

(** [shr_fexp] on a positive mantissa: no shift when the exponent is already
    the canonical one or above, a division by a power of two otherwise. *)
Lemma shr_fexp_pos (m : positive) (e : Z) (l : location) :
  let n := fexp (Z.pos (digits2_pos m) + e) - e in
  (n <= 0 ->
   shr_fexp prec emax (Z.pos m) e l = (shr_record_of_loc (Z.pos m) l, e)) /\
  (0 < n ->
   exists mrs, shr_fexp prec emax (Z.pos m) e l = (mrs, e + n) /\
               shr_m mrs = Z.pos m / 2 ^ n).
Proof.
  intros n. unfold shr_fexp, shr. cbn [Zdigits2]. fold n.
  destruct n as [|p|p] eqn:En; split; intros Hn; try lia; try reflexivity.
  eexists. split; [reflexivity|].
  rewrite shr_m_iter_pos by (rewrite shr_m_record_of_loc; lia).
  rewrite shr_m_record_of_loc. reflexivity.
Qed.

(** A number in canonical form has at most [prec] digits, and exactly
    [prec] when its exponent is above [emin]. *)
Lemma canonical_digits (m : positive) (e : Z) :
  canonical_mantissa prec emax m e = true ->
  emin <= e /\ Z.pos (digits2_pos m) <= prec /\
  (emin < e -> Z.pos (digits2_pos m) = prec).
Proof.
  unfold canonical_mantissa, SpecFloat.fexp. intros H.
  apply Z.eqb_eq in H. lia.
Qed.

(** Among numbers in canonical form the order of the pairs (exponent,
    mantissa) is the order of the values. *)
Lemma canonical_le (mx : positive) (ex : Z) (mr : positive) (er e1 : Z) :
  canonical_mantissa prec emax mx ex = true ->
  canonical_mantissa prec emax mr er = true ->
  e1 <= ex -> e1 <= er ->
  Z.pos mx * 2 ^ (ex - e1) <= Z.pos mr * 2 ^ (er - e1) ->
  SFleb (S754_finite false mx ex) (S754_finite false mr er) = true.
Proof.
  intros Cx Cr Hx Hr Hv.
  apply canonical_digits in Cx as (Ex & Dx & Dx').
  apply canonical_digits in Cr as (Er & Dr & Dr').
  pose proof (digits2_pos_bounds mx) as [Lx Ux].
  pose proof (digits2_pos_bounds mr) as [Lr Ur].
  unfold SFleb, SFcompare.
  destruct (Z.compare_spec ex er) as [Heq|Hlt|Hgt]; [|reflexivity|].
  - subst er.
    change (Pos.compare_cont Eq mx mr) with (Pos.compare mx mr).
    destruct (Pos.compare_spec mx mr) as [H|H|H]; try reflexivity.
    exfalso. pose proof (pow2_pos (ex - e1)) as Hp.
    assert (Z.pos mr < Z.pos mx) by lia. nia.
  - exfalso.
    rewrite Dx' in Lx by lia.
    assert (Hr' : Z.pos mr < 2 ^ prec).
    { eapply Z.lt_le_trans; [exact Ur|]. apply pow2_le. lia. }
    replace (ex - e1) with ((ex - er - 1) + (1 + (er - e1))) in Hv by lia.
    rewrite pow2_add in Hv by lia. rewrite (pow2_add 1) in Hv by lia.
    pose proof (pow2_pos (ex - er - 1)) as H1.
    pose proof (pow2_pos (er - e1)) as H2.
    replace prec with (1 + (prec - 1)) in Hr' by lia.
    rewrite pow2_add in Hr' by lia.
    change (2 ^ 1) with 2 in *.
    assert (Hm : 2 * Z.pos mx > Z.pos mr) by lia.
    assert (H3 : Z.pos mx * (2 ^ (ex - er - 1) * (2 * 2 ^ (er - e1)))
                 >= Z.pos mx * (2 * 2 ^ (er - e1))) by nia.
    nia.
Qed.

(** Rounding a positive number that is at least a number [x] in canonical
    form gives a number that is at least [x]. *)
Lemma round_down_bound (mz : positive) (e1 : Z) (mx : positive) (ex : Z) :
  emin <= e1 ->
  canonical_mantissa prec emax mx ex = true ->
  e1 <= ex ->
  Z.pos mx * 2 ^ (ex - e1) <= Z.pos mz ->
  let n := fexp (Z.pos (digits2_pos mz) + e1) - e1 in
  0 < n ->
  Z.pos mx * 2 ^ (ex - e1) <= (Z.pos mz / 2 ^ n) * 2 ^ n.
Proof.
  intros He1 Cx Hx Hv n Hn.
  apply canonical_digits in Cx as (Ex & Dx & Dx').
  pose proof (digits2_pos_bounds mx) as [Lx Ux].
  pose proof (digits2_pos_bounds mz) as [Lz Uz].
  assert (En : n = Z.pos (digits2_pos mz) - prec).
  { subst n. unfold SpecFloat.fexp in *. lia. }
  pose proof (pow2_pos n) as Hp.
  destruct (Z.le_gt_cases n (ex - e1)) as [Hge|Hlt].
  - replace (ex - e1) with ((ex - e1 - n) + n) in * by lia.
    rewrite pow2_add in * by lia.
    rewrite Z.mul_assoc. apply Z.mul_le_mono_nonneg_r; [lia|].
    apply Z.div_le_lower_bound; [lia|]. lia.
  - assert (Hlow : 2 ^ (prec - 1) <= Z.pos mz / 2 ^ n).
    { apply Z.div_le_lower_bound; [lia|].
      rewrite <- pow2_add by lia.
      replace (n + (prec - 1)) with (Z.pos (digits2_pos mz) - 1) by lia.
      exact Lz. }
    assert (Hup : Z.pos mx < 2 ^ prec).
    { eapply Z.lt_le_trans; [exact Ux|]. apply pow2_le. lia. }
    assert (H1 : Z.pos mx * 2 ^ (ex - e1) < 2 ^ prec * 2 ^ (ex - e1)).
    { apply Z.mul_lt_mono_pos_r; [apply pow2_pos; lia|exact Hup]. }
    assert (H2 : 2 ^ (prec + (ex - e1)) <= 2 ^ (prec - 1 + n))
      by (apply pow2_le; lia).
    rewrite (pow2_add prec (ex - e1)), (pow2_add (prec - 1) n) in H2 by lia.
    assert (H3 : 2 ^ (prec - 1) * 2 ^ n <= Z.pos mz / 2 ^ n * 2 ^ n)
      by (apply Z.mul_le_mono_nonneg_r; lia).
    lia.
Qed.

(** The result of [binary_round_aux] on a positive mantissa [mz] at an
    exponent [e1]: an infinity, or a finite number that is not below any
    number in canonical form that [mz * 2^e1] is not below. *)
Lemma binary_round_aux_pos (s : bool) (mz : positive) (e1 : Z) :
  emin <= e1 ->
  binary_round_aux prec emax s (Z.pos mz) e1 loc_Exact = S754_infinity s \/
  exists mr er,
    binary_round_aux prec emax s (Z.pos mz) e1 loc_Exact
      = S754_finite s mr er /\
    e1 <= er /\
    forall mx ex,
      canonical_mantissa prec emax mx ex = true -> e1 <= ex ->
      Z.pos mx * 2 ^ (ex - e1) <= Z.pos mz ->
      Z.pos mx * 2 ^ (ex - e1) <= Z.pos mr * 2 ^ (er - e1).
Proof.
  intros He1. unfold binary_round_aux.
  set (n := fexp (Z.pos (digits2_pos mz) + e1) - e1).
  destruct (shr_fexp_pos mz e1 loc_Exact) as [Hno Hshift].
  fold n in Hno, Hshift.
  destruct (Z.le_gt_cases n 0) as [Hn|Hn].
  - rewrite (Hno Hn).
    cbn [shr_record_of_loc loc_of_shr_record shr_m round_nearest_even].
    rewrite (Hno Hn). cbn [shr_record_of_loc shr_m].
    destruct (e1 <=? emax - prec); [right|left; reflexivity].
    exists mz, e1. split; [reflexivity|]. split; [lia|].
    intros mx ex _ _ Hv. rewrite (Z.sub_diag e1). simpl (2 ^ 0). lia.
  - destruct (Hshift Hn) as (mrs & E & Hm). rewrite E. clear Hno Hshift E.
    pose proof (digits2_pos_bounds mz) as [Lz Uz].
    assert (En : n = Z.pos (digits2_pos mz) - prec).
    { subst n. unfold SpecFloat.fexp in *. lia. }
    pose proof (pow2_pos n) as Hp.
    assert (Hlow : 2 ^ (prec - 1) <= Z.pos mz / 2 ^ n).
    { apply Z.div_le_lower_bound; [lia|].
      rewrite <- pow2_add by lia.
      replace (n + (prec - 1)) with (Z.pos (digits2_pos mz) - 1) by lia.
      exact Lz. }
    assert (Hup : Z.pos mz / 2 ^ n < 2 ^ prec).
    { apply Z.div_lt_upper_bound; [lia|].
      rewrite <- pow2_add by lia.
      replace (n + prec) with (Z.pos (digits2_pos mz)) by lia.
      exact Uz. }
    pose proof (pow2_pos (prec - 1)) as Hp1.
    pose proof (round_nearest_even_bounds (shr_m mrs) (loc_of_shr_record mrs))
      as Hr.
    destruct (round_nearest_even (shr_m mrs) (loc_of_shr_record mrs))
      as [|p2|p2]; try lia.
    assert (Hdown : forall mx ex,
              canonical_mantissa prec emax mx ex = true -> e1 <= ex ->
              Z.pos mx * 2 ^ (ex - e1) <= Z.pos mz ->
              Z.pos mx * 2 ^ (ex - e1) <= (Z.pos mz / 2 ^ n) * 2 ^ n).
    { intros mx ex Cx Hx Hv.
      apply (round_down_bound mz e1 mx ex He1 Cx Hx Hv). exact Hn. }
    destruct (shr_fexp_pos p2 (e1 + n) loc_Exact) as [Hno2 Hshift2].
    destruct (Z.lt_ge_cases (Z.pos p2) (2 ^ prec)) as [Hsmall|Hbig].
    + assert (D2 : Z.pos (digits2_pos p2) = prec)
        by (apply digits2_pos_unique; lia).
      rewrite D2 in Hno2.
      rewrite Hno2 by (unfold SpecFloat.fexp; lia).
      cbn [shr_record_of_loc shr_m].
      destruct (e1 + n <=? emax - prec); [right|left; reflexivity].
      exists p2, (e1 + n). split; [reflexivity|]. split; [lia|].
      intros mx ex Cx Hx Hv.
      replace (e1 + n - e1) with n by lia.
      specialize (Hdown mx ex Cx Hx Hv).
      assert (Z.pos mz / 2 ^ n * 2 ^ n <= Z.pos p2 * 2 ^ n)
        by (apply Z.mul_le_mono_nonneg_r; lia).
      lia.
    + assert (E2 : Z.pos p2 = 2 ^ prec) by lia.
      assert (D2 : Z.pos (digits2_pos p2) = prec + 1).
      { apply digits2_pos_unique. rewrite E2.
        replace (prec + 1 - 1) with prec by lia.
        split; [lia|]. rewrite pow2_add by lia. change (2 ^ 1) with 2. lia. }
      rewrite D2 in Hshift2.
      assert (N2 : fexp (prec + 1 + (e1 + n)) - (e1 + n) = 1)
        by (unfold SpecFloat.fexp; lia).
      rewrite N2 in Hshift2.
      destruct (Hshift2 ltac:(lia)) as (mrs2 & E & Hm2). rewrite E.
      rewrite E2 in Hm2. change (2 ^ 1) with 2 in Hm2.
      assert (Hhalf : 2 ^ prec / 2 = 2 ^ (prec - 1)).
      { replace prec with (1 + (prec - 1)) at 1 by lia.
        rewrite pow2_add by lia. change (2 ^ 1) with 2.
        rewrite Z.mul_comm. apply Z.div_mul. lia. }
      rewrite Hhalf in Hm2.
      destruct (shr_m mrs2) as [|mr|mr]; try lia.
      destruct (e1 + n + 1 <=? emax - prec); [right|left; reflexivity].
      exists mr, (e1 + n + 1). split; [reflexivity|]. split; [lia|].
      intros mx ex Cx Hx Hv.
      replace (e1 + n + 1 - e1) with (n + 1) by lia.
      specialize (Hdown mx ex Cx Hx Hv).
      rewrite Hm2, pow2_add by lia. change (2 ^ 1) with 2.
      assert (Hpp : 2 ^ prec = 2 * 2 ^ (prec - 1)).
      { replace prec with (1 + (prec - 1)) at 1 by lia.
        rewrite pow2_add by lia. reflexivity. }
      assert (Z.pos mz / 2 ^ n * 2 ^ n <= 2 ^ prec * 2 ^ n)
        by (apply Z.mul_le_mono_nonneg_r; lia).
      rewrite Hpp in H. lia.
Qed.

Lemma Pos_iter_xO (m d : positive) :
  Z.pos (Pos.iter xO m d) = Z.pos m * 2 ^ Z.pos d.
Proof.
  induction d as [|d IH] using Pos.peano_ind.
  - simpl. lia.
  - rewrite Pos.iter_succ, Pos2Z.inj_succ, Z.pow_succ_r by lia.
    change (Z.pos (Pos.iter xO m d)~0) with (2 * Z.pos (Pos.iter xO m d)).
    rewrite IH. lia.
Qed.

Lemma shl_align_fst (m : positive) (e e' : Z) :
  e' <= e ->
  Z.pos (fst (shl_align m e e')) = Z.pos m * 2 ^ (e - e').
Proof.
  intros H. unfold shl_align.
  destruct (e' - e) as [|d|d] eqn:E; cbn [fst].
  - replace (e - e') with 0 by lia. simpl. lia.
  - lia.
  - rewrite Pos_iter_xO. replace (e - e') with (Z.pos d) by lia. reflexivity.
Qed.

(** The same for [binary_round]. *)
Lemma binary_round_pos (s : bool) (M : positive) (ez : Z) :
  emin <= ez ->
  binary_round prec emax s M ez = S754_infinity s \/
  exists mr er e1,
    binary_round prec emax s M ez = S754_finite s mr er /\
    e1 <= ez /\ e1 <= er /\
    forall mx ex,
      canonical_mantissa prec emax mx ex = true -> ez <= ex ->
      Z.pos mx * 2 ^ (ex - ez) <= Z.pos M ->
      Z.pos mx * 2 ^ (ex - e1) <= Z.pos mr * 2 ^ (er - e1).
Proof.
  intros Hez. unfold binary_round.
  set (e0 := fexp (Z.pos (digits2_pos M) + ez)).
  assert (He0 : emin <= e0) by apply fexp_ge_emin.
  pose proof (shl_align_fst M ez e0) as Hfst.
  unfold shl_align in *.
  destruct (e0 - ez) as [|d|d] eqn:E; cbn [fst] in Hfst.
  - destruct (binary_round_aux_pos s M ez Hez) as [H|(mr & er & H & Her & Hb)];
      [left; exact H|right].
    exists mr, er, ez. repeat split; try assumption; lia.
  - destruct (binary_round_aux_pos s M ez Hez) as [H|(mr & er & H & Her & Hb)];
      [left; exact H|right].
    exists mr, er, ez. repeat split; try assumption; lia.
  - destruct (binary_round_aux_pos s (Pos.iter xO M d) e0 He0)
      as [H|(mr & er & H & Her & Hb)]; [left; exact H|right].
    exists mr, er, e0. repeat split; try assumption; try lia.
    intros mx ex Cx Hx Hv. apply Hb; [exact Cx|lia|].
    rewrite Hfst by lia.
    replace (ex - e0) with ((ex - ez) + (ez - e0)) by lia.
    rewrite pow2_add by lia. rewrite Z.mul_assoc.
    apply Z.mul_le_mono_nonneg_r; [|exact Hv].
    pose proof (pow2_pos (ez - e0)). lia.
Qed.

(** *** Addition *)

Local Abbreviation valid := (SpecFloat.valid_binary prec emax).
Local Abbreviation add := (SFadd prec emax).

Lemma valid_finite (s : bool) (m : positive) (e : Z) :
  valid (S754_finite s m e) = true ->
  canonical_mantissa prec emax m e = true.
Proof.
  simpl. unfold bounded. intros H. apply andb_true_iff in H as [H _]. exact H.
Qed.

(** Adding a positive number to a number that is not negative gives a
    number that is not smaller, and positive. *)
Lemma SFadd_pos (x y : spec_float) :
  valid x = true -> valid y = true -> valid (add x y) = true ->
  SFleb (S754_zero false) x = true -> SFltb (S754_zero false) y = true ->
  SFleb x (add x y) = true /\ SFltb (S754_zero false) (add x y) = true.
Proof.
  intros Vx Vy Vr Hx Hy.
  destruct x as [sx|[|]| |[|] mx ex]; simpl in Hx; try discriminate Hx;
    destruct y as [sy|[|]| |[|] my ey]; simpl in Hy; try discriminate Hy;
    try (split; reflexivity).
  - (* finite + finite *)
    pose proof (valid_finite _ _ _ Vx) as Cx.
    pose proof (valid_finite _ _ _ Vy) as Cy.
    pose proof (canonical_digits _ _ Cx) as (Ex & _).
    pose proof (canonical_digits _ _ Cy) as (Ey & _).
    revert Vr. unfold SFadd. cbn [cond_Zopp].
    set (ez := Z.min ex ey).
    set (a := fst (shl_align mx ex ez)).
    set (b := fst (shl_align my ey ez)).
    change (Z.pos a + Z.pos b) with (Z.pos (a + b)).
    cbn [binary_normalize].
    assert (Ha : Z.pos a = Z.pos mx * 2 ^ (ex - ez))
      by (apply shl_align_fst; lia).
    destruct (binary_round_pos false (a + b) ez ltac:(lia))
      as [H|(mr & er & e1 & H & He1 & Her & Hb)]; rewrite H; intros Vr.
    + split; reflexivity.
    + split; [|reflexivity].
      apply (canonical_le mx ex mr er e1 Cx (valid_finite _ _ _ Vr));
        [lia|lia|].
      apply Hb; [exact Cx|lia|].
      rewrite Pos2Z.inj_add, Ha. lia.
Qed.

(** The result of a rounding has the sign asked for. *)
Lemma binary_round_sign (s : bool) (M : positive) (ez : Z) :
  emin <= ez ->
  binary_round prec emax s M ez = S754_infinity s \/
  exists mr er, binary_round prec emax s M ez = S754_finite s mr er.
Proof.
  intros Hez.
  destruct (binary_round_pos s M ez Hez) as [H|(mr & er & e1 & H & _)];
    [left; exact H|right; eauto].
Qed.

(** The sum of two numbers that are not positive is not positive. *)
Lemma SFadd_nonpos (x y : spec_float) :
  valid x = true -> valid y = true ->
  SFleb x (S754_zero false) = true -> SFleb y (S754_zero false) = true ->
  SFleb (add x y) (S754_zero false) = true.
Proof.
  intros Vx Vy Hx Hy.
  destruct x as [[|]|[|]| |[|] mx ex]; simpl in Hx; try discriminate Hx;
    destruct y as [[|]|[|]| |[|] my ey]; simpl in Hy; try discriminate Hy;
    try reflexivity.
  - (* finite + finite *)
    pose proof (canonical_digits _ _ (valid_finite _ _ _ Vx)) as (Ex & _).
    pose proof (canonical_digits _ _ (valid_finite _ _ _ Vy)) as (Ey & _).
    unfold SFadd. cbn [cond_Zopp].
    set (ez := Z.min ex ey).
    set (a := fst (shl_align mx ex ez)).
    set (b := fst (shl_align my ey ez)).
    change (- Z.pos a + - Z.pos b) with (Z.neg (a + b)).
    cbn [binary_normalize].
    destruct (binary_round_sign true (a + b) ez ltac:(lia))
      as [H|(mr & er & H)]; rewrite H; reflexivity.
Qed.

End Rounding.

(** ** The laws in binary64 *)

Lemma binary64_ieee_laws : Rounded.ieee_laws binary64.
Proof.
  assert (Hzero : Prim2SF 0%float = S754_zero false) by reflexivity.
  assert (Hprec : 0 < FloatOps.prec) by reflexivity.
  split; unfold Rounded.le, Rounded.lt; simpl.
  - reflexivity.
  - intros a b. rewrite ltb_spec, leb_spec. apply SFltb_leb.
  - intros a b c. rewrite !leb_spec. apply SFleb_trans.
  - intros a b c. rewrite leb_spec, !ltb_spec. apply SFleb_ltb_trans.
  - intros a b. rewrite !leb_spec. apply SFleb_refl_of.
  - intros a b. rewrite !leb_spec, ltb_spec. apply SFnot_ltb_leb.
  - intros a b. rewrite leb_spec, ltb_spec. apply SFleb_not_ltb.
  - intros t d. rewrite !leb_spec, !ltb_spec, add_spec, Hzero.
    apply (SFadd_pos FloatOps.prec FloatOps.emax Hprec); try apply Prim2SF_valid.
    unfold SF64add. rewrite <- add_spec. apply Prim2SF_valid.
  - intros t d. rewrite !leb_spec, add_spec, Hzero.
    apply (SFadd_nonpos FloatOps.prec FloatOps.emax Hprec); apply Prim2SF_valid.
Qed.

(** ** The small engine meets the contracts *)

Lemma Toy_exponential_contract : exponential_contract Toy.exponential.
Proof.
  intros lambda rng Hl. unfold Toy.exponential.
  destruct (Toy.next rng) as [x g']. simpl.
  apply Qlt_shift_div_l; [exact Hl|].
  rewrite Qmult_0_l. unfold Qlt. simpl. lia.
Qed.

Lemma Toy_uniform01_contract : uniform01_contract Toy.uniform01.
Proof.
  intros rng. unfold Toy.uniform01.
  destruct (Toy.next rng) as [x g']. simpl.
  pose proof (Z.mod_pos_bound x 8 ltac:(lia)) as H.
  unfold Qle, Qlt. simpl. split; lia.
Qed.

(** An index listed by [Toy.support_from] points at a positive weight. *)
Lemma Toy_support_from_spec (w : list Q) :
  forall i s, In s (Toy.support_from i w) ->
    i <= s < i + Z.of_nat (length w) /\
    exists q, w !! Z.to_nat (s - i) = Some q /\ (0 < q)%Q.
Proof.
  induction w as [|q w IH]; intros i s Hs; simpl in Hs; [contradiction|].
  assert (Hrec : In s (Toy.support_from (i + 1) w) ->
            i <= s < i + Z.of_nat (length (q :: w)) /\
            exists q', (q :: w) !! Z.to_nat (s - i) = Some q' /\ (0 < q')%Q).
  { intros H. destruct (IH (i + 1) s H) as [Hr (q' & Hq' & Hpos)].
    simpl length. split; [lia|]. exists q'. split; [|exact Hpos].
    replace (Z.to_nat (s - i)) with (S (Z.to_nat (s - (i + 1)))) by lia.
    exact Hq'. }
  destruct (Qltb 0 q) eqn:E; [|auto].
  destruct Hs as [<-|Hs]; [|auto].
  simpl length. split; [lia|]. exists q.
  rewrite Z.sub_diag. split; [reflexivity|]. apply Qltb_lt. exact E.
Qed.

(** Weights that are not negative and sum to more than 0 have a positive
    one. *)
Lemma Toy_support_from_nonempty (w : list Q) :
  forall i, forallb (Qle_bool 0) w = true -> (0 < row_sum w)%Q ->
    Toy.support_from i w <> [].
Proof.
  induction w as [|q w IH]; intros i Hnn Hsum; simpl in *.
  - exfalso. exact (Qlt_irrefl _ Hsum).
  - apply andb_true_iff in Hnn as [Hq Hw].
    destruct (Qltb 0 q) eqn:E; [discriminate|].
    apply IH; [exact Hw|].
    apply Qltb_ge in E. apply Qle_bool_iff in Hq.
    assert (Hq0 : q == 0) by (apply Qle_antisym; assumption).
    rewrite Hq0, Qplus_0_l in Hsum. exact Hsum.
Qed.

Lemma Toy_discrete_pick (w : list Q) (x : Z) :
  Toy.support_from 0 w <> [] ->
  In (nth (Z.to_nat (x mod Z.of_nat (length (Toy.support_from 0 w))))
        (Toy.support_from 0 w) 0)
     (Toy.support_from 0 w).
Proof.
  intros Hne. apply nth_In.
  destruct (Toy.support_from 0 w) as [|s sup]; [congruence|].
  pose proof (Z.mod_pos_bound x (Z.of_nat (length (s :: sup)))
                ltac:(simpl length; lia)).
  lia.
Qed.

Lemma Toy_discrete_range_contract : discrete_range_contract Toy.discrete.
Proof.
  intros w gen Hw. unfold Toy.discrete.
  destruct (Toy.next gen) as [x g']. simpl.
  destruct (Toy.support_from 0 w) as [|s sup] eqn:E.
  - destruct w; [congruence|]. simpl length.
    destruct (Z.to_nat (x mod Z.of_nat 0)); simpl; lia.
  - rewrite <- E.
    destruct (Toy_support_from_spec w 0 _
                (Toy_discrete_pick w x ltac:(rewrite E; discriminate)))
      as [Hr _].
    lia.
Qed.

Lemma Toy_discrete_support_contract : discrete_support_contract Toy.discrete.
Proof.
  intros w gen Hnn Hsum. unfold Toy.discrete.
  destruct (Toy.next gen) as [x g']. simpl.
  pose proof (Toy_support_from_nonempty w 0 Hnn Hsum) as Hne.
  destruct (Toy_support_from_spec w 0 _ (Toy_discrete_pick w x Hne))
    as [Hr (q & Hq & Hpos)].
  exists q. split; [|exact Hpos].
  apply vec_at_Some. split; [lia|].
  rewrite Z.sub_0_r in Hq. exact Hq.
Qed.

(** ** The generators on concrete inputs *)

(** The matrix of the demonstration in the source. *)
Example simMarkovChain_demo_matrix :
  simMarkovChain Toy.seed Toy.discrete (Some [0; 1; 2; 3]) 0
    [[1 # 5; 3 # 10; 1 # 2]; [0; 3 # 10; 7 # 10]; [1 # 2; 2 # 5; 1 # 10]]%Q 0 4
  = (Returned [0; 0; 1; 1; 2], Some []).
Proof. vm_compute. reflexivity. Qed.

(** The same matrix with every entry the rational that its double stands
    for: the rows 0.0, 0.3, 0.7 and 0.5, 0.4, 0.1 do not sum to 1 exactly,
    and the matrix is a valid transition matrix, its rows summing to 1 within
    the tolerance. *)
Example markov_main_matrix_binary64 :
  let p := map (map exact_value)
             [[0x1.999999999999ap-3; 0x1.3333333333333p-2; 0x1p-1];
              [0; 0x1.3333333333333p-2; 0x1.6666666666666p-1];
              [0x1p-1; 0x1.999999999999ap-2; 0x1.999999999999ap-4]]%float in
  valid_transition_matrix p = true /\
  map (fun row => Qeq_bool (row_sum row) 1) p = [true; false; false].
Proof. vm_compute. split; reflexivity. Qed.

Example simRandomWalk_four_steps :
  simRandomWalk Toy.seed Toy.bernoulli (Some [1; 1; 0; 1]) 0 (1 # 2) 4
  = (Returned [0; 1; 2; 1; 2], Some []).
Proof. vm_compute. reflexivity. Qed.

(** Two calls in a row with the same parameters: the second continues the
    static engine the first one left and returns another path. *)
Example simRandomWalk_second_call :
  let first := simRandomWalk Toy.seed Toy.bernoulli None 1 (1 # 2) 1 in
  let second := simRandomWalk Toy.seed Toy.bernoulli (snd first) 1 (1 # 2) 1 in
  fst first = Returned [0; 1] /\ fst second = Returned [0; -1].
Proof. vm_compute. split; reflexivity. Qed.

(** ** The exact arithmetic meets the laws *)

Lemma exact_ieee_laws : Rounded.ieee_laws exact.
Proof.
  split; unfold Rounded.le, Rounded.lt; simpl.
  - reflexivity.
  - intros a b H. apply Qltb_lt in H. apply Qle_bool_iff. lra.
  - intros a b c H1 H2. apply Qle_bool_iff in H1, H2. apply Qle_bool_iff. lra.
  - intros a b c H1 H2. apply Qle_bool_iff in H1. apply Qltb_lt in H2.
    apply Qltb_lt. lra.
  - intros a b _. split; apply Qle_bool_iff; lra.
  - intros a b _ _ H. apply Qltb_ge in H. apply Qle_bool_iff. exact H.
  - intros a b H. apply Qle_bool_iff in H. apply Qltb_ge. exact H.
  - intros t d H1 H2. apply Qle_bool_iff in H1. apply Qltb_lt in H2.
    split; [apply Qle_bool_iff|apply Qltb_lt]; lra.
  - intros t d H1 H2. apply Qle_bool_iff in H1, H2. apply Qle_bool_iff. lra.
Qed.


(** ** Instances of the theorems *)



Lemma simulateNonHomogeneousPoisson_constant_rate_witness :
  fst <$> simulateNonHomogeneousPoisson Toy.exponential Toy.uniform01 5
            (fun _ => 2%Q) 2 (7 # 4) [0; 0; 0; 0; 1; 7; 3]
  = fst <$> simulateHomogeneousPoisson Toy.exponential 5 2 (7 # 4)
              [0; 0; 0; 0; 1; 7; 3].
Proof.
  apply (simulateNonHomogeneousPoisson_constant_rate Toy.exponential
           Toy.uniform01 Toy_uniform01_contract 5 2 (7 # 4)
           [0; 0; 0; 0; 1; 7; 3]).
  reflexivity.
Defined.



Lemma simRandomWalk_unit_steps_witness :
  Z.of_nat (length [0; 1; 2; 1; 2]) = 4 + 1 /\
  [0; 1; 2; 1; 2] !! 0%nat = Some 0.
Proof.
  destruct (simRandomWalk_unit_steps Toy.seed Toy.bernoulli
              (Some [1; 1; 0; 1]) 0 (1 # 2) 4)
    as [_ H].
  - discriminate.
  - discriminate.
  - lia.
  - destruct (H [0; 1; 2; 1; 2] (Some [])) as (H1 & H2 & _).
    + vm_compute. reflexivity.
    + split; assumption.
Defined.

Lemma simMarkovChain_in_bounds_witness :
  fst (simMarkovChain Toy.seed Toy.discrete (Some [0; 1; 2; 3]) 0
         [[1 # 5; 3 # 10; 1 # 2]; [0; 3 # 10; 7 # 10];
          [1 # 2; 2 # 5; 1 # 10]]%Q 0 4)
  <> Failed OutOfBounds.
Proof.
  destruct (simMarkovChain_in_bounds Toy.seed Toy.discrete
              Toy_discrete_range_contract (Some [0; 1; 2; 3]) 0
              [[1 # 5; 3 # 10; 1 # 2]; [0; 3 # 10; 7 # 10];
               [1 # 2; 2 # 5; 1 # 10]]%Q 0 4)
    as [H _].
  - vm_compute. reflexivity.
  - reflexivity.
  - lia.
  - exact H.
Defined.

Lemma simRandomWalk_bound_parity_witness :
  exists x, [0; 1; 2; 1; 2] !! 3%nat = Some x /\
            Z.abs x <= Z.of_nat 3 /\ Z.even (x + Z.of_nat 3) = true.
Proof.
  apply (simRandomWalk_bound_parity Toy.seed Toy.bernoulli
           (Some [1; 1; 0; 1]) 0 (1 # 2) 4 [0; 1; 2; 1; 2] (Some [])).
  - lia.
  - vm_compute. reflexivity.
  - lia.
Defined.

Lemma generators_do_not_validate_witness :
  simRandomWalk Toy.seed Toy.bernoulli None 0 (3 # 2) (-5)
  = (Failed LengthError, Some [0]) /\
  Rounded.simulateHomogeneousPoisson binary64
    (fun _ (g : Toy.engine) => ((-0x1p-1)%float, g)) 1000
    (-2)%float 10%float [0] = None.
Proof.
  destruct (generators_do_not_validate Toy.seed Toy.discrete Toy.bernoulli
              None 0)
    as (_ & _ & H & _ & _ & _ & _ & HP).
  split.
  - apply H. lia.
  - apply (HP binary64 (fun _ (g : Toy.engine) => ((-0x1p-1)%float, g))
             (fun g => (0%float, g)) (fun g => (0%float, g))
             (fun t => t) (-2)%float 10%float [0] 1000%nat
             binary64_ieee_laws).
    + intros g. reflexivity.
    + reflexivity.
Defined.

Lemma randomness_sources_witness :
  simRandomWalk Toy.seed Toy.bernoulli None 7 (1 # 2) 1
  = (Returned [0; 1], Some []) /\
  ([] : Toy.engine)
  = snd (draws_of (Toy.exponential 1) 3 [0; 0; 0]).
Proof.
  destruct (randomness_sources Toy.seed Toy.discrete Toy.bernoulli)
    as (HH & _ & _ & HW & _).
  split.
  - rewrite (HW None 7 (1 # 2) 1) by (unfold INT_MAX; lia).
    vm_compute. reflexivity.
  - apply (HH exact Toy.exponential 5%nat 1%Q (5 # 2)%Q [0; 0; 0]
             [1; 2]%Q []).
    vm_compute. reflexivity.
Defined.

(** ** Where the code departs from the specification *)


(** C2 as stated fails: with a negative step count, or an up-probability
    above 1, simRandomWalk does not raise InvalidParameter; for steps = -1 it
    returns an empty path. *)
Lemma simRandomWalk_raises_no_InvalidParameter :
  ~ (forall p n, ((p < 0)%Q \/ (1 < p)%Q \/ n < 0) ->
       fst (simRandomWalk Toy.seed Toy.bernoulli None 0 p n)
       = Failed InvalidParameter).
Proof.
  intros H. specialize (H (3 # 2) (-1)).
  assert (Hbad : ((3 # 2) < 0)%Q \/ (1 < 3 # 2)%Q \/ -1 < 0)
    by (right; right; lia).
  specialize (H Hbad). vm_compute in H. discriminate.
Qed.



(** C8 as stated fails: simRandomWalk and simMarkovChain have no engine
    parameter.  Whatever the engine and its distributions are, a first call
    of simRandomWalk leaves an engine in the static slot, and the one step of
    simRandomWalk(0.5, 1) is the outcome of a draw from the engine found in
    the slot: calls with identical parameters return the path 0, 1 or the
    path 0, -1 according to that engine, which the caller does not pass.
    Two calls with identical parameters that find the static engine in
    states whose next Bernoulli draw differs return different paths. *)
Lemma simRandomWalk_draws_from_static_engine :
  ~ (exists (G : Type) (seed : Z -> G) (bernoulli : Q -> G -> bool * G)
            (entropy : Z) (p : Q) (n : Z),
       snd (simRandomWalk seed bernoulli None entropy p n) = None) /\
  (forall (G : Type) (seed : Z -> G) (bernoulli : Q -> G -> bool * G)
          (gen : G) (entropy : Z),
     simRandomWalk seed bernoulli (Some gen) entropy (1 # 2) 1
     = (Returned [0; if fst (bernoulli (1 # 2) gen) then 1 else -1],
        Some (snd (bernoulli (1 # 2) gen)))) /\
  (forall (G : Type) (seed : Z -> G) (bernoulli : Q -> G -> bool * G)
          (gen1 gen2 : G) (entropy : Z),
     fst (bernoulli (1 # 2) gen1) = true ->
     fst (bernoulli (1 # 2) gen2) = false ->
     fst (simRandomWalk seed bernoulli (Some gen1) entropy (1 # 2) 1)
     <> fst (simRandomWalk seed bernoulli (Some gen2) entropy (1 # 2) 1)).
Proof.
  assert (Hstep : forall (G : Type) (seed : Z -> G)
                         (bernoulli : Q -> G -> bool * G)
                         (gen : G) (entropy : Z),
            simRandomWalk seed bernoulli (Some gen) entropy (1 # 2) 1
            = (Returned [0; if fst (bernoulli (1 # 2) gen) then 1 else -1],
               Some (snd (bernoulli (1 # 2) gen)))).
  { intros G seed bernoulli gen entropy.
    unfold simRandomWalk. simpl.
    destruct (bernoulli (1 # 2) gen) as [b gen1]. simpl.
    destruct b; reflexivity. }
  split; [|split; [exact Hstep|]].
  - intros (G & seed & bernoulli & entropy & p & n & H).
    unfold simRandomWalk in H.
    destruct (INT_MAX <=? n); [discriminate|].
    destruct (n + 1 <? 0); [discriminate|].
    destruct (rw_loop bernoulli p (Z.to_nat n) 1
                (replicate (Z.to_nat (n + 1)) 0) (static_gen seed None entropy))
      as [r gen']. discriminate.
  - intros G seed bernoulli gen1 gen2 entropy H1 H2.
    rewrite !Hstep, H1, H2. discriminate.
Qed.

(** ** More facts about the small engine *)

Lemma Toy_sin_contract : sin_contract Toy.sin.
Proof.
  intros x. unfold Toy.sin.
  destruct (Qfloor x mod 4 =? 1); [split; discriminate|].
  destruct (Qfloor x mod 4 =? 3); split; discriminate.
Qed.

(** ** A clock that stops

    In binary64 a gap is absorbed when it is below half an ulp of the clock:
    2^53 + 1 rounds to 2^53. *)

Lemma hpp_loop_stalls (fuel : nat) :
  forall acc,
    Rounded.hpp_loop binary64 Tape64.exponential fuel 1%float 0x1p54%float
      0x1p53%float acc [] = None.
Proof.
  induction fuel as [|fuel IH]; intros acc; [reflexivity|].
  rewrite rounded_hpp_loop_S.
  change (Tape64.exponential 1 []) with (1%float, [] : Tape64.engine).
  cbv iota beta.
  change (d_add binary64 0x1p53 1)%float with 0x1p53%float.
  change (d_ltb binary64 0x1p54 0x1p53)%float with false.
  cbv iota. apply IH.
Qed.

(** X2: a lower bound on the gaps does not make the loop of
    simulateHomogeneousPoisson leave.  In binary64, at rate 1 and horizon
    2^54, with a first gap of 2^53 and every later gap 1, the clock stays at
    2^53, where a gap of 1 is absorbed: it never passes the horizon, and no
    number of iterations makes the call return. *)
Theorem simulateHomogeneousPoisson_stalls :
  forall fuel,
    Rounded.simulateHomogeneousPoisson binary64 Tape64.exponential fuel
      1%float 0x1p54%float [0x1p53%float] = None.
Proof.
  intros [|fuel]; [reflexivity|].
  unfold Rounded.simulateHomogeneousPoisson.
  rewrite rounded_hpp_loop_S.
  change (Tape64.exponential 1 [0x1p53%float])
    with (0x1p53%float, [] : Tape64.engine).
  cbv iota beta.
  change (d_add binary64 (d_zero binary64) 0x1p53)%float with 0x1p53%float.
  change (d_ltb binary64 0x1p54 0x1p53)%float with false.
  cbv iota. apply hpp_loop_stalls.
Qed.

(** ** Instances of the further theorems *)

Lemma simulateHomogeneousPoisson_partial_sums_witness :
  exists over,
    Rounded.running_sums binary64 0%float
      (fst (draws_of (Tape64.exponential 1%float) 3 [3; 0x1p-53; 30]%float))
    = [3; 3]%float ++ [over] /\
    PrimFloat.ltb 10 over = true.
Proof.
  destruct (simulateHomogeneousPoisson_partial_sums binary64
              Tape64.exponential 3 1%float 10%float [3; 0x1p-53; 30]%float
              [3; 3]%float [])
    as (over & H1 & H2 & _).
  - vm_compute. reflexivity.
  - exists over. split; assumption.
Defined.

Lemma simulateHomogeneousPoisson_nonpositive_horizon_witness :
  simulateHomogeneousPoisson Toy.exponential 1 2 (-3) [4; 5]
  = Some ([], snd (Toy.exponential 2 [4; 5])).
Proof.
  apply (simulateHomogeneousPoisson_nonpositive_horizon Toy.exponential
           Toy_exponential_contract 0 2 (-3) [4; 5]).
  - reflexivity.
  - discriminate.
Defined.

Lemma simulateNonHomogeneousPoisson_no_rate_witness :
  fst <$> simulateNonHomogeneousPoisson Toy.exponential Toy.uniform01 5
            (fun _ => 0%Q) 2 (7 # 4) [0; 0; 0; 0; 1; 7; 3]
  = (fun _ => []) <$> simulateHomogeneousPoisson Toy.exponential 5 2 (7 # 4)
                        [0; 0; 0; 0; 1; 7; 3].
Proof.
  apply (simulateNonHomogeneousPoisson_no_rate Toy.exponential Toy.uniform01
           Toy_uniform01_contract 5 (fun _ => 0%Q) 2 (7 # 4)
           [0; 0; 0; 0; 1; 7; 3]).
  - reflexivity.
  - intros t. discriminate.
Defined.

Lemma simulateNonHomogeneousPoisson_rate_above_bound_witness :
  fst <$> simulateNonHomogeneousPoisson Toy.exponential Toy.uniform01 5
            (fun _ => 5%Q) 2 (7 # 4) [0; 0; 0; 0; 1; 7; 3]
  = fst <$> simulateHomogeneousPoisson Toy.exponential 5 2 (7 # 4)
              [0; 0; 0; 0; 1; 7; 3].
Proof.
  apply (simulateNonHomogeneousPoisson_rate_above_bound Toy.exponential
           Toy.uniform01 Toy_uniform01_contract 5 (fun _ => 5%Q) 2 (7 # 4)
           [0; 0; 0; 0; 1; 7; 3]).
  - reflexivity.
  - intros t. discriminate.
Defined.

Lemma simulateNonHomogeneousPoisson_monotone_witness :
  exists out2,
    simulateNonHomogeneousPoisson Toy.exponential Toy.uniform01 5
      (fun t => t + 1)%Q 2 (7 # 4) [0; 0; 0; 0; 1; 7; 3] = Some (out2, []) /\
    [1 # 2; 12 # 8]%Q `sublist_of` out2.
Proof.
  apply (simulateNonHomogeneousPoisson_monotone Toy.exponential Toy.uniform01
           5 (fun t => t) (fun t => t + 1)%Q 2 (7 # 4)
           [0; 0; 0; 0; 1; 7; 3] [1 # 2; 12 # 8]%Q []).
  - reflexivity.
  - intros t. lra.
  - vm_compute. reflexivity.
Defined.

Lemma simulateCompoundPoisson_nondecreasing_witness :
  StronglySorted Qle (map snd [(1, 3 # 8); (2, 56 # 64)]%Q).
Proof.
  apply (simulateCompoundPoisson_nondecreasing Toy.exponential 5 1 (5 # 2)
           [0; 0; 0; 3; 4] Toy.uniform01 [(1, 3 # 8); (2, 56 # 64)]%Q []).
  - intros g. apply Toy_uniform01_contract.
  - vm_compute. reflexivity.
Defined.

Lemma exampleLambda_within_bound_witness :
  (0 <= exampleLambda Toy.sin 5)%Q /\ (exampleLambda Toy.sin 5 <= 4.0)%Q /\
  (0 <= exampleLambda Toy.sin 5 / 4.0)%Q /\
  (exampleLambda Toy.sin 5 / 4.0 <= 1)%Q.
Proof.
  apply (exampleLambda_within_bound Toy.sin Toy_sin_contract 5).
Defined.


Lemma simMarkovChain_initial_state_unchecked_witness :
  simMarkovChain Toy.seed Toy.discrete None 9 [[1]]%Q 7 3
  = (Failed OutOfBounds, Some [9]).
Proof.
  destruct (simMarkovChain_initial_state_unchecked Toy.seed Toy.discrete
              None 9 [[1]]%Q 7) as [_ H].
  apply (H eq_refl 3). unfold INT_MAX. lia.
Defined.

Lemma simMarkovChain_composes_witness :
  exists path1 slot1 last1 path2 slot2,
    simMarkovChain Toy.seed Toy.discrete (Some [1; 0; 1; 1]) 0
      [[1 # 2; 1 # 2]; [0; 1]]%Q 0 2 = (Returned path1, slot1) /\
    last path1 = Some last1 /\
    simMarkovChain Toy.seed Toy.discrete slot1 0
      [[1 # 2; 1 # 2]; [0; 1]]%Q last1 2 = (Returned path2, slot2) /\
    simMarkovChain Toy.seed Toy.discrete (Some [1; 0; 1; 1]) 0
      [[1 # 2; 1 # 2]; [0; 1]]%Q 0 (2 + 2)
    = (Returned (path1 ++ tail path2), slot2).
Proof.
  apply (simMarkovChain_composes Toy.seed Toy.discrete
           Toy_discrete_range_contract (Some [1; 0; 1; 1]) 0 0
           [[1 # 2; 1 # 2]; [0; 1]]%Q 0 2 2).
  - reflexivity.
  - reflexivity.
  - lia.
  - lia.
  - unfold INT_MAX. lia.
Defined.

Lemma simMarkovChain_absorbing_witness :
  [0; 1; 1; 1; 1] !! 3%nat = Some 1.
Proof.
  apply (simMarkovChain_absorbing Toy.seed Toy.discrete
           Toy_discrete_support_contract (Some [1; 0; 1; 1]) 0
           [[1 # 2; 1 # 2]; [0; 1]]%Q 0 4 [0; 1; 1; 1; 1] (Some []) 1
           eq_refl eq_refl ltac:(lia)) with (i := 1%nat).
  - intros s' w Hw Hpos.
    assert (Hcases : s' < 0 \/ s' = 0 \/ s' = 1 \/ 2 <= s') by lia.
    destruct Hcases as [H|[H|[H|H]]].
    + destruct s'; try lia. discriminate.
    + subst s'. vm_compute in Hw. inversion Hw; subst w.
      vm_compute in Hpos. discriminate.
    + exact H.
    + exfalso. unfold transition_probability, vec_at in Hw. simpl in Hw.
      destruct (Z.leb_spec 0 s'); [|lia].
      destruct (Z.to_nat s') as [|[|k]] eqn:E; try lia. discriminate.
  - vm_compute. reflexivity.
  - lia.
  - simpl. lia.
  - reflexivity.
Defined.


Lemma simRandomWalk_closed_form_witness :
  2 = 2 * successes
            (take 4 (fst (draws (Toy.bernoulli (1 # 2)) (Z.to_nat 4)
                            (static_gen Toy.seed (Some [1; 1; 0; 1]) 0))))
      - Z.of_nat 4.
Proof.
  apply (simRandomWalk_closed_form Toy.seed Toy.bernoulli (Some [1; 1; 0; 1]) 0
           (1 # 2) 4 [0; 1; 2; 1; 2] (Some [])).
  - lia.
  - vm_compute. reflexivity.
  - reflexivity.
Defined.

Lemma simRandomWalk_lipschitz_witness :
  Z.abs (1 - 1) <= Z.of_nat 3 - Z.of_nat 1 /\
  Z.even (1 - 1 + (Z.of_nat 3 - Z.of_nat 1)) = true.
Proof.
  apply (simRandomWalk_lipschitz Toy.seed Toy.bernoulli (Some [1; 1; 0; 1]) 0
           (1 # 2) 4 [0; 1; 2; 1; 2] (Some [])).
  - lia.
  - vm_compute. reflexivity.
  - lia.
  - reflexivity.
  - reflexivity.
Defined.

Lemma simRandomWalk_composes_witness :
  exists path1 slot1 last1 path2 slot2,
    simRandomWalk Toy.seed Toy.bernoulli (Some [1; 1; 0; 1]) 0 (1 # 2) 3
      = (Returned path1, slot1) /\
    last path1 = Some last1 /\
    simRandomWalk Toy.seed Toy.bernoulli slot1 0 (1 # 2) 1
      = (Returned path2, slot2) /\
    simRandomWalk Toy.seed Toy.bernoulli (Some [1; 1; 0; 1]) 0 (1 # 2) (3 + 1)
    = (Returned (path1 ++ map (Z.add last1) (tail path2)), slot2).
Proof.
  apply (simRandomWalk_composes Toy.seed Toy.bernoulli (Some [1; 1; 0; 1]) 0 0
           (1 # 2) 3 1).
  - lia.
  - lia.
  - unfold INT_MAX. lia.
Defined.

Lemma piEstimate_between_0_and_4_witness :
  (0 <= piEstimate Toy.uniform_m11 4%Z [0; 8; 15; 15; 12; 4; 9; 9]%Z)%Q /\
  (piEstimate Toy.uniform_m11 4%Z [0; 8; 15; 15; 12; 4; 9; 9]%Z <= 4)%Q.
Proof.
  destruct (piEstimate_between_0_and_4 Toy.seed Toy.uniform_m11) as [H _].
  apply H. lia.
Defined.
